(** * code-suggester: tree building, batching and commit chaining

    A shallow embedding of [src/github/commit-and-push.ts] and
    [src/github/create-commit.ts].  The asynchronous functions of the source
    thread one git repository through every call and may throw; they are
    written here in a state-and-error monad over an explicit [World]. *)

From stdpp Require Import base option list strings gmap.
From Stdlib Require Import Ascii.

Local Open Scope list_scope.

(* ===================================================================== *)
(** ** Data model ([src/types/index.ts]) *)
(* ===================================================================== *)

(** [type FileMode = '100644' | '100755' | '040000' | '160000' | '120000'] *)
Inductive FileMode : Type :=
  | M100644 | M100755 | M040000 | M160000 | M120000.

(** The [type] field of a tree object or entry: ['blob' | 'tree' | 'commit']. *)
Inductive EntryType : Type := TBlob | TTree | TCommit.

#[global] Instance FileMode_eq_dec : EqDecision FileMode.
Proof. solve_decision. Defined.
#[global] Instance EntryType_eq_dec : EqDecision EntryType.
Proof. solve_decision. Defined.

(** A JavaScript property that may be missing ([undefined]), [null], or hold
    a value.  The source tests [=== null], which [undefined] does not pass. *)
Inductive JsOpt (A : Type) : Type :=
  | Undefined
  | Null
  | Val (a : A).
Arguments Undefined {A}.
Arguments Null {A}.
Arguments Val {A} a.

(** Object names.  The store hands out one name per distinct object, as a
    content hash does; the name is the object's position in the store. *)
Definition Oid : Type := nat.

(** [class FileData]: [content: string | null], [mode] defaulting to
    ['100644']. *)
Record FileData : Type := mkFileData {
  fd_content : option string;
  fd_mode : FileMode
}.

(** [new FileData(content)] with the default mode. *)
Definition FileData_default (content : option string) : FileData :=
  mkFileData content M100644.

(** [type Changes = Map<string, FileData>]: a JS [Map] iterates in insertion
    order, so it is kept as the list of its (key, value) pairs. *)
Definition Changes : Type := list (string * FileData).

(** [interface TreeObject] with optional [sha?: string | null] and
    [content?: string]. *)
Record TreeObject : Type := mkTreeObject {
  obj_path : string;
  obj_mode : FileMode;
  obj_type : EntryType;
  obj_sha : JsOpt Oid;
  obj_content : JsOpt string
}.

(** isomorphic-git's [TreeEntry]: [{mode, path, oid, type}]. *)
Record TreeEntry : Type := mkTreeEntry {
  entry_mode : FileMode;
  entry_path : string;
  entry_oid : Oid;
  entry_type : EntryType
}.

#[global] Instance TreeEntry_eq_dec : EqDecision TreeEntry.
Proof. solve_decision. Defined.

Record UserData : Type := mkUserData {
  user_name : string;
  user_email : string
}.

#[global] Instance UserData_eq_dec : EqDecision UserData.
Proof. solve_decision. Defined.

(** The fields [git.commit] is given in [createCommit]. *)
Record CommitObject : Type := mkCommit {
  commit_message : string;
  commit_tree : Oid;
  commit_parent : list Oid;
  commit_signingKey : option string;
  commit_author : option UserData;
  commit_committer : option UserData
}.

#[global] Instance CommitObject_eq_dec : EqDecision CommitObject.
Proof. solve_decision. Defined.

Inductive GitObject : Type :=
  | Blob (content : string)
  | Tree (entries : list TreeEntry)
  | Commit (c : CommitObject).

#[global] Instance GitObject_eq_dec : EqDecision GitObject.
Proof. solve_decision. Defined.

(** [interface BranchDomain extends RepoDomain]. *)
Record BranchDomain : Type := mkBranchDomain {
  owner : string;
  repo : string;
  branch : string
}.

(** What the signer is asked to sign in [createCommit]. *)
Record SignPayload : Type := mkSignPayload {
  sign_message : string;
  sign_tree : Oid;
  sign_parents : list Oid;
  sign_author : option UserData;
  sign_committer : option UserData
}.

(** [interface CommitAndPushOptions extends CreateCommitOptions].  The
    signer is an injected capability; [None] as its answer is a throw. *)
Record Options : Type := mkOptions {
  signer : option (SignPayload -> option string);
  author : option UserData;
  committer : option UserData;
  filesPerCommit : option nat
}.

(** [options = {}] *)
Definition no_options : Options := mkOptions None None None None.

(* ===================================================================== *)
(** ** The repository the calls act on *)
(* ===================================================================== *)

(** Every call the source makes on the git library, the hosting API or the
    signer, with its arguments. *)
Inductive Call : Type :=
  | CallGetCommit (commit_sha : Oid)
  | CallReadTree (oid : Oid)
  | CallWriteBlob (blob : string)
  | CallWriteTree (entries : list TreeEntry)
  | CallSign (payload : SignPayload)
  | CallFetch
  | CallCommit (c : CommitObject)
  | CallWriteRef (ref : string) (value : Oid) (force : bool)
  | CallPush (force : bool).

(** The context a [CommitError] message names:
    [`Error adding to tree: ${refHead}`],
    [`Error creating commit for: ${treeSha}`],
    [`Error updating ref heads/${origin.branch} to ${newSha}`]. *)
Inductive ErrorContext : Type :=
  | AddingToTree (refHead : Oid)
  | CreatingCommit (treeSha : Oid)
  | UpdatingRef (branch_name : string) (newSha : Oid).

Inductive Error : Type :=
  | TypeError
      (* [Buffer.from(undefined)] *)
  | TransportError (c : Call)
      (* the call failed on the way: network, authentication, file system *)
  | NotFoundError (oid : Oid)
  | ObjectTypeError (oid : Oid)
  | NonFastForwardError (ref : string)
  | SignerError
  | CommitError (context : ErrorContext) (cause : Error).

(** - [objects]: the object database;
    - [refs]: the branch references;
    - [trace]: the calls made so far, oldest first;
    - [faults]: for each coming call, whether it fails on the way
      ([true]); past its end no call fails. *)
Record World : Type := mkWorld {
  objects : list GitObject;
  refs : gmap string Oid;
  trace : list Call;
  faults : list bool
}.

Definition set_objects (os : list GitObject) (w : World) : World :=
  mkWorld os (refs w) (trace w) (faults w).
Definition set_refs (rs : gmap string Oid) (w : World) : World :=
  mkWorld (objects w) rs (trace w) (faults w).

(** How a call of the source ends: with a value, with a throw, or not at
    all within the given number of loop iterations. *)
Inductive Result (A : Type) : Type :=
  | Ok (a : A)
  | Err (e : Error)
  | OutOfFuel.
Arguments Ok {A} a.
Arguments Err {A} e.
Arguments OutOfFuel {A}.

Definition M (A : Type) : Type := World -> Result A * World.

Definition ret {A} (a : A) : M A := fun w => (Ok a, w).
Definition throw {A} (e : Error) : M A := fun w => (Err e, w).
Definition out_of_fuel {A} : M A := fun w => (OutOfFuel, w).

Definition bind {A B} (m : M A) (k : A -> M B) : M B := fun w =>
  match m w with
  | (Ok a, w') => k a w'
  | (Err e, w') => (Err e, w')
  | (OutOfFuel, w') => (OutOfFuel, w')
  end.

(** [try { m } catch (e) { handler e }] *)
Definition try_catch {A} (m : M A) (handler : Error -> M A) : M A := fun w =>
  match m w with
  | (Err e, w') => handler e w'
  | r => r
  end.

Declare Scope git_scope.
Delimit Scope git_scope with git.
Notation "x <- m ;; k" := (bind m (fun x => k))
  (at level 100, m at next level, right associativity) : git_scope.
Notation "m ;;; k" := (bind m (fun _ => k))
  (at level 100, right associativity) : git_scope.
Local Open Scope git_scope.

(** [for (const x of xs) { acc = await f(acc, x) }] *)
Fixpoint foldM {A B} (f : A -> B -> M A) (xs : list B) (acc : A) : M A :=
  match xs with
  | [] => ret acc
  | x :: xs' => acc' <- f acc x ;; foldM f xs' acc'
  end.

(* ===================================================================== *)
(** ** The calls on the store *)
(* ===================================================================== *)

(** A call is recorded, consumes one entry of the fault schedule, and only
    then has its effect. *)
Definition call {A} (c : Call) (body : M A) : M A := fun w =>
  let w' := mkWorld (objects w) (refs w) (trace w ++ [c]) (tail (faults w)) in
  match faults w with
  | true :: _ => (Err (TransportError c), w')
  | _ => body w'
  end.

(** [Array.prototype.findIndex]; [None] stands for [-1]. *)
Fixpoint findIndex {A} (p : A -> bool) (l : list A) : option nat :=
  match l with
  | [] => None
  | x :: l' => if p x then Some 0 else S <$> findIndex p l'
  end.

(** Writing an object returns the name of the equal object already stored,
    or stores it under a new name. *)
Definition store_object (o : GitObject) : M Oid := fun w =>
  match findIndex (fun o' => bool_decide (o' = o)) (objects w) with
  | Some i => (Ok i, w)
  | None => (Ok (length (objects w)), set_objects (objects w ++ [o]) w)
  end.

(** The source reaches the store through [octokit] and [isomorphic-git],
    which are not part of the repository; their operations follow the
    spec's section 6 (get commit, read tree, write blob, write tree, create
    commit, write ref, push), each of which may fail on the way. *)

(** Modelled from the spec: get commit (by id), giving its tree id
    ([octokit.git.getCommit], then [.data.commit.tree.sha]). *)
Definition getCommit (commit_sha : Oid) : M Oid :=
  call (CallGetCommit commit_sha) (fun w =>
    match objects w !! commit_sha with
    | Some (Commit c) => (Ok (commit_tree c), w)
    | Some _ => (Err (ObjectTypeError commit_sha), w)
    | None => (Err (NotFoundError commit_sha), w)
    end).

(** Modelled from the spec: read tree (by id), giving its entries
    ([git.readTree], then [.tree]). *)
Definition readTree (oid : Oid) : M (list TreeEntry) :=
  call (CallReadTree oid) (fun w =>
    match objects w !! oid with
    | Some (Tree entries) => (Ok entries, w)
    | Some _ => (Err (ObjectTypeError oid), w)
    | None => (Err (NotFoundError oid), w)
    end).

(** Modelled from the spec: write blob (bytes), giving its object id
    ([git.writeBlob]). *)
Definition writeBlob (blob : string) : M Oid :=
  call (CallWriteBlob blob) (store_object (Blob blob)).

(** Modelled from the spec: write tree (entries), giving its object id
    ([git.writeTree]). *)
Definition writeTree (entries : list TreeEntry) : M Oid :=
  call (CallWriteTree entries) (store_object (Tree entries)).

(** Modelled from the spec: [git.fetch], which brings nothing the chain
    depends on. *)
Definition fetch : M unit := call CallFetch (ret tt).

(** Modelled from the spec: create commit (tree id, parent ids, message,
    author, committer, optional signature), giving its commit id
    ([git.commit]); references are moved by the reference write alone. *)
Definition commit (c : CommitObject) : M Oid :=
  call (CallCommit c) (store_object (Commit c)).

(** Modelled from the spec: push, the transport-level transmission
    ([git.push]). *)
Definition push (force : bool) : M unit := call (CallPush force) (ret tt).

(** Modelled from the spec: the injected signer capability,
    [generateSignature(message, tree, parents, author, committer)]. *)
Definition generateSignature (sg : SignPayload -> option string)
    (payload : SignPayload) : M string :=
  call (CallSign payload) (fun w =>
    match sg payload with
    | Some s => (Ok s, w)
    | None => (Err SignerError, w)
    end).

(** [target] is [from] or one of its ancestors in the commit graph. *)
Fixpoint reaches (os : list GitObject) (fuel : nat) (target from : Oid) : bool :=
  bool_decide (from = target) ||
  match fuel with
  | 0 => false
  | S fuel' =>
      match os !! from with
      | Some (Commit c) => existsb (reaches os fuel' target) (commit_parent c)
      | _ => false
      end
  end.

(** Moving [ref] to [value] discards no history. *)
Definition fast_forward (w : World) (ref : string) (value : Oid) : bool :=
  match refs w !! ref with
  | None => true
  | Some current => reaches (objects w) (length (objects w)) current value
  end.

(** Modelled from the spec: the store's reference write (section 4.4).
    Without [force] the store rejects an update that is not a fast-forward;
    with [force] it overwrites the reference. *)
Definition writeRef (ref : string) (value : Oid) (force : bool) : M unit :=
  call (CallWriteRef ref value force) (fun w =>
    if force || fast_forward w ref value
    then (Ok tt, set_refs (<[ref := value]> (refs w)) w)
    else (Err (NonFastForwardError ref), w)).

(* ===================================================================== *)
(** ** [src/github/commit-and-push.ts] *)
(* ===================================================================== *)

Definition DEFAULT_FILES_PER_COMMIT : nat := 100.

(** [mode2type$1]; its [throw] is for strings outside [FileMode]. *)
Definition mode2type (mode : FileMode) : EntryType :=
  match mode with
  | M040000 => TTree
  | M100644 => TBlob
  | M100755 => TBlob
  | M120000 => TBlob
  | M160000 => TCommit
  end.

(** The body of the [changes.forEach] callback. *)
Definition treeObjectOf (path : string) (fileData : FileData) : TreeObject :=
  match fd_content fileData with
  | None =>
      (* if no file content then file is deleted *)
      {| obj_path := path; obj_mode := fd_mode fileData;
         obj_type := mode2type (fd_mode fileData);
         obj_sha := Null; obj_content := Undefined |}
  | Some content =>
      (* update file with its content *)
      {| obj_path := path; obj_mode := fd_mode fileData;
         obj_type := mode2type (fd_mode fileData);
         obj_sha := Undefined; obj_content := Val content |}
  end.

Definition generateTreeObjects (changes : Changes) : list TreeObject :=
  map (fun '(path, fileData) => treeObjectOf path fileData) changes.

(** [all.slice(i, j)] for [0 <= i]. *)
Definition slice {T} (all : list T) (i j : nat) : list T :=
  take (j - i) (drop i all).

(** One resumption of the generator [inGroupsOf] whose loop variable is at
    [i]: the group it yields and the next value of [i], or [None] when the
    loop ends. *)
Definition inGroupsOf_next {T} (all : list T) (groupSize : nat) (i : nat)
    : option (list T * nat) :=
  if bool_decide (i < length all)
  then Some (slice all i (i + groupSize), i + groupSize)
  else None.

(** Everything the generator yields from [i] on, when it ends within [fuel]
    resumptions. *)
Fixpoint inGroupsOf_from {T} (fuel : nat) (all : list T) (groupSize : nat)
    (i : nat) : option (list (list T)) :=
  match fuel with
  | 0 => None
  | S fuel' =>
      match inGroupsOf_next all groupSize i with
      | None => Some []
      | Some (group, i') =>
          cons group <$> inGroupsOf_from fuel' all groupSize i'
      end
  end.

Definition inGroupsOf {T} (fuel : nat) (all : list T) (groupSize : nat)
    : option (list (list T)) :=
  inGroupsOf_from fuel all groupSize 0.

(** [fileData.path.split('/')]: the first part and the parts after it (the
    result of [split] is never empty). *)
Fixpoint split_path (s : string) : string * list string :=
  match s with
  | EmptyString => (EmptyString, [])
  | String c s' =>
      let '(part, parts) := split_path s' in
      if Ascii.eqb c "/"%char
      then (EmptyString, part :: parts)
      else (String c part, parts)
  end.

Definition has_path (part : string) (entry : TreeEntry) : bool :=
  String.eqb (entry_path entry) part.

(** [newTree[existingIndex] = newEntry] or [newTree.push(newEntry)]. *)
Definition upsert (newTree : list TreeEntry) (existingIndex : option nat)
    (newEntry : TreeEntry) : list TreeEntry :=
  match existingIndex with
  | Some i => <[i := newEntry]> newTree
  | None => newTree ++ [newEntry]
  end.

(** [updateTreeRecursively(gitConfig, existingTree, pathParts, fileData)]
    with [pathParts = part :: remainingParts]. *)
Fixpoint updateTreeRecursively (existingTree : list TreeEntry) (part : string)
    (remainingParts : list string) (fileData : TreeObject)
    : M (list TreeEntry) :=
  let newTree := existingTree in
  let existingIndex := findIndex (has_path part) newTree in
  match remainingParts with
  | [] =>
      blobOid <-
        match obj_content fileData with
        | Null => ret None
        | Val content => oid <- writeBlob content ;; ret (Some oid)
        | Undefined => throw TypeError
        end ;;
      match blobOid with
      | None =>
          (* Remove if existing *)
          match existingIndex with
          | Some i => ret (delete i newTree)
          | None => ret newTree
          end
      | Some blobOid =>
          let newEntry :=
            {| entry_mode := obj_mode fileData; entry_path := part;
               entry_oid := blobOid; entry_type := TBlob |} in
          ret (upsert newTree existingIndex newEntry)
      end
  | part' :: remainingParts' =>
      (* we are in a directory *)
      subTree <-
        match existingIndex ≫= (fun i => newTree !! i) with
        | Some entry =>
            match entry_type entry with
            | TTree => readTree (entry_oid entry)
            | _ => ret []
            end
        | None => ret []
        end ;;
      updatedSubTree <-
        updateTreeRecursively subTree part' remainingParts' fileData ;;
      newSubTreeOid <- writeTree updatedSubTree ;;
      let newEntry :=
        {| entry_mode := M040000; entry_path := part;
           entry_oid := newSubTreeOid; entry_type := TTree |} in
      ret (upsert newTree existingIndex newEntry)
  end.

(** The body of the loop of [createTree]. *)
Definition applyChange (currentTree : list TreeEntry) (fileData : TreeObject)
    : M (list TreeEntry) :=
  let '(part, remainingParts) := split_path (obj_path fileData) in
  updateTreeRecursively currentTree part remainingParts fileData.

Definition createTree (refHead : Oid) (tree : list TreeObject) : M Oid :=
  try_catch
    (oldTreeSha <- getCommit refHead ;;
     currentTree <- readTree oldTreeSha ;;
     currentTree <- foldM applyChange tree currentTree ;;
     writeTree currentTree)
    (fun e => throw (CommitError (AddingToTree refHead) e)).

(** [`refs/heads/${origin.branch}`] *)
Definition head_ref (origin : BranchDomain) : string :=
  "refs/heads/" +:+ branch origin.

Definition updateRef (origin : BranchDomain) (newSha : Oid) (force : bool)
    : M unit :=
  try_catch
    (writeRef (head_ref origin) newSha force)
    (fun e => throw (CommitError (UpdatingRef (branch origin) newSha) e)).

(* ===================================================================== *)
(** ** [src/github/create-commit.ts] *)
(* ===================================================================== *)

Definition createCommit (refHead treeSha : Oid) (message : string)
    (options : Options) : M Oid :=
  try_catch
    (signature <-
       match signer options with
       | Some sg =>
           s <- generateSignature sg
                  {| sign_message := message; sign_tree := treeSha;
                     sign_parents := [refHead];
                     sign_author := author options;
                     sign_committer := committer options |} ;;
           ret (Some s)
       | None => ret None
       end ;;
     fetch ;;;
     commit {| commit_message := message; commit_tree := treeSha;
               commit_parent := [refHead]; commit_signingKey := signature;
               commit_author := author options;
               commit_committer := committer options |})
    (fun e => throw (CommitError (CreatingCommit treeSha) e)).

(* ===================================================================== *)
(** ** [commitAndPush] *)
(* ===================================================================== *)

(** The [for (const treeGroup of inGroupsOf(tree, filesPerCommit))] loop,
    resuming the generator at [i]; [fuel] bounds the number of
    iterations. *)
Fixpoint commitGroups (fuel : nat) (tree : list TreeObject)
    (filesPerCommit : nat) (i : nat) (refHead : Oid) (commitMessage : string)
    (options : option Options) : M Oid :=
  match fuel with
  | 0 => out_of_fuel
  | S fuel' =>
      match inGroupsOf_next tree filesPerCommit i with
      | None => ret refHead
      | Some (treeGroup, i') =>
          treeSha <- createTree refHead treeGroup ;;
          refHead' <- createCommit refHead treeSha commitMessage
                        (default no_options options) ;;
          commitGroups fuel' tree filesPerCommit i' refHead' commitMessage
            options
      end
  end.

(** [options?.filesPerCommit ?? DEFAULT_FILES_PER_COMMIT] *)
Definition filesPerCommitOf (options : option Options) : nat :=
  default DEFAULT_FILES_PER_COMMIT (options ≫= filesPerCommit).

Definition commitAndPush (fuel : nat) (refHead : Oid) (changes : Changes)
    (originBranch : BranchDomain) (commitMessage : string) (force : bool)
    (options : option Options) : M unit :=
  let filesPerCommit := filesPerCommitOf options in
  let tree := generateTreeObjects changes in
  refHead' <- commitGroups fuel tree filesPerCommit 0 refHead commitMessage
                options ;;
  updateRef originBranch refHead' force ;;;
  push force.

(* ===================================================================== *)
(** ** What a run may do to the world *)
(* ===================================================================== *)

(** The world a call's body runs in. *)
Definition called (c : Call) (w : World) : World :=
  mkWorld (objects w) (refs w) (trace w ++ [c]) (tail (faults w)).

(** From [w] to [w']: objects were only added, the references are as they
    were, and every call made in between satisfies [P]. *)
Definition evolves (P : Call → Prop) (w w' : World) : Prop :=
  objects w `prefix_of` objects w'
  ∧ refs w' = refs w
  ∧ ∃ calls, trace w' = trace w ++ calls ∧ Forall P calls.

(** Every run of [m] changes the world by [evolves P]. *)
Definition keeps {A} (P : Call → Prop) (m : M A) : Prop :=
  ∀ w r w', m w = (r, w') → evolves P w w'.

(** [m] always ends, with a value or a throw. *)
Definition returns {A} (m : M A) : Prop := ∀ w, (m w).1 ≠ OutOfFuel.

(** The calls [updateTreeRecursively] makes. *)
Definition is_tree_call (c : Call) : Prop :=
  match c with
  | CallReadTree _ | CallWriteBlob _ | CallWriteTree _ => True
  | _ => False
  end.

(** The calls [createTree] makes. *)
Definition is_createTree_call (c : Call) : Prop :=
  match c with
  | CallGetCommit _ => True
  | _ => is_tree_call c
  end.

(** The calls [createCommit] makes. *)
Definition is_createCommit_call (c : Call) : Prop :=
  match c with
  | CallSign _ | CallFetch | CallCommit _ => True
  | _ => False
  end.

(** The calls of the batch loop: anything but a reference write or a
    push. *)
Definition is_batch_call (c : Call) : Prop :=
  match c with
  | CallWriteRef _ _ _ | CallPush _ => False
  | _ => True
  end.


(** The commits among a list of calls. *)
Definition commits_of (calls : list Call) : list CommitObject :=
  omap (fun c => match c with CallCommit c => Some c | _ => None end) calls.

(** [commits] were created one on top of the other starting on [parent],
    under the names [shas], all with [message]. *)
Fixpoint chained (message : string) (parent : Oid)
    (commits : list CommitObject) (shas : list Oid) : Prop :=
  match commits, shas with
  | [], [] => True
  | c :: commits', sha :: shas' =>
      commit_parent c = [parent] ∧ commit_message c = message
      ∧ chained message sha commits' shas'
  | _, _ => False
  end.

(** [ceil(n / d)] on naturals. *)
Definition ceil_div (n d : nat) : nat := (n + d - 1) / d.

(* ===================================================================== *)
(** ** Reading a tree by path *)
(* ===================================================================== *)

(** What is found at a path, besides its mode: a file with its stored
    content ([None] when the name is not that of a stored blob), a
    directory, or a submodule link. *)
Inductive Payload : Type :=
  | PFile (content : option string)
  | PDir
  | PLink (oid : Oid).

(** What an entry holds, read from the store [os]. *)
Definition payload (os : list GitObject) (entry : TreeEntry) : Payload :=
  match entry_type entry with
  | TBlob =>
      PFile (match os !! entry_oid entry with
             | Some (Blob content) => Some content
             | _ => None
             end)
  | TTree => PDir
  | TCommit => PLink (entry_oid entry)
  end.

(** The listing a directory entry points to. *)
Definition subtree (os : list GitObject) (entry : TreeEntry)
    : option (list TreeEntry) :=
  match entry_type entry with
  | TTree =>
      match os !! entry_oid entry with
      | Some (Tree entries) => Some entries
      | _ => None
      end
  | _ => None
  end.

(** Follow the path [q] from the listing [l]: at each level take the first
    entry with the part's name, and descend through directories. *)
Fixpoint read (os : list GitObject) (l : list TreeEntry) (q : list string)
    : option (FileMode * Payload) :=
  match q with
  | [] => None
  | part :: rest =>
      match find (has_path part) l with
      | None => None
      | Some entry =>
          match rest with
          | [] => Some (entry_mode entry, payload os entry)
          | _ :: _ =>
              match subtree os entry with
              | Some l' => read os l' rest
              | None => None
              end
          end
      end
  end.

(** Read the path [q] in the tree named [oid]. *)
Definition readAt (os : list GitObject) (oid : Oid) (q : list string)
    : option (FileMode * Payload) :=
  match os !! oid with
  | Some (Tree l) => read os l q
  | _ => None
  end.

(** The parts of a change's path. *)
Definition pathParts (fileData : TreeObject) : list string :=
  let '(part, remainingParts) := split_path (obj_path fileData) in
  part :: remainingParts.

(** Where a path [q] lies with respect to the path [p] of a change. *)
Inductive PathRel : Type :=
  | Same     (* [q] is [p] *)
  | Above    (* [q] is a proper prefix of [p] *)
  | Below    (* [p] is a proper prefix of [q] *)
  | Apart.   (* neither is a prefix of the other *)

#[global] Instance PathRel_eq_dec : EqDecision PathRel.
Proof. solve_decision. Defined.

(** [compare_paths p q]: where [q] lies with respect to [p]. *)
Fixpoint compare_paths (p q : list string) : PathRel :=
  match p, q with
  | [], [] => Same
  | [], _ :: _ => Below
  | _ :: _, [] => Above
  | a :: p', b :: q' =>
      if String.eqb a b then compare_paths p' q' else Apart
  end.

(** What is read at [q] once a change at relative position [rel] has been
    applied, [old] being what was read before. *)
Definition written (fileData : TreeObject) (rel : PathRel) (q : list string)
    (old : option (FileMode * Payload)) : option (FileMode * Payload) :=
  match rel with
  | Apart => old
  | Same =>
      match obj_content fileData with
      | Val content => Some (obj_mode fileData, PFile (Some content))
      | _ => None
      end
  | Above =>
      match q with
      | [] => None
      | _ :: _ => Some (M040000, PDir)
      end
  | Below => None
  end.

(** The same for the change [fileData] with its own path. *)
Definition after_change (q : list string) (old : option (FileMode * Payload))
    (fileData : TreeObject) : option (FileMode * Payload) :=
  written fileData (compare_paths (pathParts fileData) q) q old.

(** No change of the batch is at [q], above it or below it. *)
Definition untouched (tree : list TreeObject) (q : list string) : Prop :=
  Forall (fun fileData => compare_paths (pathParts fileData) q = Apart) tree.

(** No change of the batch is at [q] or above it: changes are apart from
    [q] or inside it. *)
Definition not_replaced (tree : list TreeObject) (q : list string) : Prop :=
  Forall (fun fileData =>
            compare_paths (pathParts fileData) q = Apart
            ∨ compare_paths (pathParts fileData) q = Above) tree.

(* ===================================================================== *)
(** ** Well-formed stores *)
(* ===================================================================== *)

(** No two entries of a listing share a name. *)
Definition unique_names (l : list TreeEntry) : Prop :=
  NoDup (entry_path <$> l).

(** The blob and tree entries of a listing name objects among the first
    [n] of the store. *)
Definition closed_listing (n : nat) (l : list TreeEntry) : Prop :=
  Forall (fun entry => entry_type entry ≠ TCommit → entry_oid entry < n) l.

(** A stored tree is closed among the first [n] objects and has unique
    names. *)
Definition wf_object (n : nat) (o : GitObject) : Prop :=
  match o with
  | Tree l => closed_listing n l ∧ unique_names l
  | _ => True
  end.

(** Every stored tree is closed in the store and has unique names. *)
Definition wf_store (os : list GitObject) : Prop :=
  Forall (wf_object (length os)) os.

#[global] Instance unique_names_dec l : Decision (unique_names l).
Proof. unfold unique_names. apply _. Defined.
#[global] Instance closed_listing_dec n l : Decision (closed_listing n l).
Proof. unfold closed_listing. apply _. Defined.
#[global] Instance wf_object_dec n o : Decision (wf_object n o).
Proof. destruct o; simpl; apply _. Defined.
#[global] Instance wf_store_dec os : Decision (wf_store os).
Proof. unfold wf_store. apply _. Defined.

(** Decide a closed proposition by evaluation. *)
Ltac by_compute := apply (bool_decide_unpack _); vm_compute; exact I.

(* ===================================================================== *)
(** ** Example repositories and changes *)
(* ===================================================================== *)

(** A repository holding the empty tree (object 0) and a root commit of it
    (object 1), with the given fault schedule. *)
Definition root_commit : CommitObject :=
  mkCommit "init" 0 [] None None None.
Definition fresh_repo (fs : list bool) : World :=
  mkWorld [Tree []; Commit root_commit] ∅ [] fs.
Definition main_branch : BranchDomain := mkBranchDomain "owner" "repo" "main".

(** A repository whose branch [main] is at commit 3, a child of commit 1;
    commit 2 is another child of commit 1. *)
Definition forked_repo (fs : list bool) : World :=
  mkWorld
    [Tree []; Commit root_commit;
     Commit (mkCommit "left" 0 [1] None None None);
     Commit (mkCommit "right" 0 [1] None None None)]
    {["refs/heads/main" := 3]} [] fs.

(** A repository with [README] and [src/lib.ts]; its head is commit 4. *)
Definition sample_repo (fs : list bool) : World :=
  mkWorld
    [Blob "old"; Blob "lib";
     Tree [mkTreeEntry M100644 "lib.ts" 1 TBlob];
     Tree [mkTreeEntry M100644 "README" 0 TBlob;
           mkTreeEntry M040000 "src" 2 TTree];
     Commit (mkCommit "init" 3 [] None None None)]
    ∅ [] fs.

(** [{README: "new", "docs/a.md": "hello"}] *)
Definition sample_changes : Changes :=
  [("README", FileData_default (Some "new"));
   ("docs/a.md", FileData_default (Some "hello"))].

(** Three files, for three batches of one. *)
Definition three_changes : Changes :=
  [("a", FileData_default (Some "x")); ("b", FileData_default (Some "y"));
   ("c", FileData_default (Some "z"))].

(** A deletion marked the way [updateTreeRecursively] tests for it. *)
Definition deletion (path : string) : TreeObject :=
  mkTreeObject path M100644 TBlob Null Null.

(* ===================================================================== *)
(** ** Unrelated changes, and stores whose directories are trees *)
(* ===================================================================== *)

(** The paths of two changes are apart. *)
Definition apart (c1 c2 : TreeObject) : Prop :=
  compare_paths (pathParts c1) (pathParts c2) = Apart.

(** No change of the batch is at, above or below another one. *)
Fixpoint pairwise_apart (tree : list TreeObject) : Prop :=
  match tree with
  | [] => True
  | c :: tree' => Forall (apart c) tree' ∧ pairwise_apart tree'
  end.


(** The directory entries of a listing name stored trees. *)
Definition typed_listing (os : list GitObject) (l : list TreeEntry) : Prop :=
  Forall
    (fun entry => entry_type entry = TTree → is_Some (subtree os entry)) l.

Definition typed_object (os : list GitObject) (o : GitObject) : Prop :=
  match o with
  | Tree l => typed_listing os l
  | _ => True
  end.

(** In every stored tree, the directory entries name stored trees. *)
Definition typed_store (os : list GitObject) : Prop :=
  Forall (typed_object os) os.

#[global] Instance typed_listing_dec os l : Decision (typed_listing os l).
Proof. unfold typed_listing. apply _. Defined.
#[global] Instance typed_object_dec os o : Decision (typed_object os o).
Proof. destruct o; simpl; apply _. Defined.
#[global] Instance typed_store_dec os : Decision (typed_store os).
Proof. unfold typed_store. apply _. Defined.

(** A signer that answers with the message, marked. *)
Definition sample_signer (payload : SignPayload) : option string :=
  Some (String.append "signed:" (sign_message payload)).


(* ===================================================================== *)
(** ** The hosting service *)
(* ===================================================================== *)

(** [interface RepoDomain]. *)
Record RepoDomain : Type := mkRepoDomain {
  repo_owner : string;
  repo_name : string
}.

(** The requests [branch.ts] sends to the hosting API. *)
Inductive Request : Type :=
  | GetBranch (remote : RepoDomain) (branch_name : string)
  | PostBranch (remote : RepoDomain) (new_branch_name : string)
      (old_ref_name : Oid).

(** The hosting service: the head of every branch of every repository,
    the requests received so far, and for each coming request the HTTP
    status it fails with on the way, if it does. *)
Record Host : Type := mkHost {
  branches : gmap (string * string * string) Oid;
  requests : list Request;
  outages : list (option nat)
}.

(** The key of a branch of a repository. *)
Definition branch_key (remote : RepoDomain) (name : string)
    : string * string * string :=
  (repo_owner remote, repo_name remote, name).

(** How a request ends: with its data, or with an error that carries an
    HTTP status. *)
Inductive Reply (A : Type) : Type :=
  | Done (a : A)
  | Failed (status : nat).
Arguments Done {A} a.
Arguments Failed {A} status.

Definition HM (A : Type) : Type := Host -> Reply A * Host.

Definition hret {A} (a : A) : HM A := fun h => (Done a, h).
Definition hthrow {A} (status : nat) : HM A := fun h => (Failed status, h).

Definition hbind {A B} (m : HM A) (k : A -> HM B) : HM B := fun h =>
  match m h with
  | (Done a, h') => k a h'
  | (Failed status, h') => (Failed status, h')
  end.

(** [try { m } catch (err) { handler err.status }] *)
Definition htry {A} (m : HM A) (handler : nat -> HM A) : HM A := fun h =>
  match m h with
  | (Failed status, h') => handler status h'
  | r => r
  end.

(** A request is recorded, consumes one entry of the outage schedule, and
    only then is served. *)
Definition request {A} (r : Request) (body : HM A) : HM A := fun h =>
  let h' := mkHost (branches h) (requests h ++ [r]) (tail (outages h)) in
  match outages h with
  | Some status :: _ => (Failed status, h')
  | _ => body h'
  end.

(** Modelled from the spec: get branch, giving its head commit id (404 when
    it does not exist); [octokit.repos.getBranch] and
    [GET /repos/{owner}/{repo}/branches/{branch}], then [.data.commit.id]. *)
Definition getBranch (remote : RepoDomain) (name : string) : HM Oid :=
  request (GetBranch remote name) (fun h =>
    match branches h !! branch_key remote name with
    | Some id => (Done id, h)
    | None => (Failed 404, h)
    end).

(** Modelled from the spec: create branch (name, base ref);
    [POST /repos/{owner}/{repo}/branches].  The spec is silent on a name
    that is taken: here, as on the Gitea API the code is adapted to, the
    request is then refused with status 409 and no branch moves. *)
Definition postBranch (remote : RepoDomain) (new_branch_name : string)
    (old_ref_name : Oid) : HM unit :=
  request (PostBranch remote new_branch_name old_ref_name) (fun h =>
    match branches h !! branch_key remote new_branch_name with
    | Some _ => (Failed 409, h)
    | None =>
        (Done tt,
         mkHost (<[branch_key remote new_branch_name := old_ref_name]>
                   (branches h))
           (requests h) (outages h))
    end).

(* ===================================================================== *)
(** ** [src/github/branch.ts] *)
(* ===================================================================== *)

Module Branch.

Definition REF_PREFIX : string := "refs/heads/".
Definition DEFAULT_PRIMARY_BRANCH : string := "main".

(** [createRef(branchName)] *)
Definition createRef (branchName : string) : string :=
  REF_PREFIX +:+ branchName.

(** [getBranchHead(octokit, origin, branch)] *)
Definition getBranchHead (origin : RepoDomain) (branch_name : string)
    : HM Oid :=
  getBranch origin branch_name.

(** [existsBranchWithName(octokit, remote, name)]; [!!data.commit.id] is
    [true] for every commit id. *)
Definition existsBranchWithName (remote : RepoDomain) (name : string)
    : HM bool :=
  htry
    (hbind (getBranch remote name) (fun _ => hret true))
    (fun status => if Nat.eqb status 404 then hret false else hthrow status).

(** [createBranch(octokit, remote, name, baseSha, duplicate)] *)
Definition createBranch (remote : RepoDomain) (name : string) (baseSha : Oid)
    (duplicate : bool) : HM unit :=
  if negb duplicate
  then postBranch remote name baseSha
  else hret tt.

(** [branch(octokit, origin, upstream, name, baseBranch)], [baseBranch]
    defaulting to [DEFAULT_PRIMARY_BRANCH]. *)
Definition branch (origin upstream : RepoDomain) (name : string)
    (baseBranch : option string) : HM Oid :=
  htry
    (hbind (getBranchHead upstream (default DEFAULT_PRIMARY_BRANCH baseBranch))
       (fun baseSha =>
     hbind (existsBranchWithName origin name) (fun duplicate =>
     hbind (createBranch origin name baseSha duplicate) (fun _ =>
     hret baseSha))))
    (fun status => hthrow status).

End Branch.

(** No coming request fails on the way. *)
Definition quiet (h : Host) : Prop := Forall (fun o => o = None) (outages h).

(** A fork [me/repo] of [up/repo], whose [main] is at commit 7. *)
Definition upstream_repo : RepoDomain := mkRepoDomain "up" "repo".
Definition origin_repo : RepoDomain := mkRepoDomain "me" "repo".
Definition sample_host (os : list (option nat)) : Host :=
  mkHost {[branch_key upstream_repo "main" := 7;
           branch_key origin_repo "main" := 5]} [] os.

(* ===================================================================== *)
(** ** The batcher *)
(* ===================================================================== *)

Section Batcher.
Context {T : Type}.
Implicit Types (all group : list T) (groups : list (list T)).
Implicit Types (i k fuel groupSize : nat).

Lemma slice_take_drop all i groupSize :
  slice all i (i + groupSize) = take groupSize (drop i all).
Proof. unfold slice. f_equal. lia. Qed.

Lemma inGroupsOf_next_Some all groupSize i :
  i < length all →
  inGroupsOf_next all groupSize i
  = Some (take groupSize (drop i all), i + groupSize).
Proof.
  intros Hi. unfold inGroupsOf_next.
  rewrite bool_decide_eq_true_2 by done. by rewrite slice_take_drop.
Qed.

Lemma inGroupsOf_next_None all groupSize i :
  length all ≤ i → inGroupsOf_next all groupSize i = None.
Proof.
  intros Hi. unfold inGroupsOf_next.
  rewrite bool_decide_eq_false_2; [done | lia].
Qed.

Lemma ceil_div_0 (d : nat) : 1 ≤ d → ceil_div 0 d = 0.
Proof. intros Hd. unfold ceil_div. apply Nat.div_small. lia. Qed.

Lemma ceil_div_step (n d : nat) : 1 ≤ d → 0 < n → ceil_div n d = S (ceil_div (n - d) d).
Proof.
  intros Hd Hn. unfold ceil_div.
  destruct (decide (d ≤ n)) as [Hle|Hlt].
  - replace (n + d - 1) with ((n - d + d - 1) + 1 * d) by lia.
    rewrite Nat.div_add by lia. lia.
  - replace (n - d) with 0 by lia.
    replace (n + d - 1) with ((n - 1) + 1 * d) by lia.
    rewrite Nat.div_add by lia.
    rewrite (Nat.div_small (n - 1)) by lia.
    rewrite (Nat.div_small (0 + d - 1)) by lia. lia.
Qed.

Lemma ceil_div_pos (n d : nat) : 1 ≤ d → 0 < ceil_div n d → 0 < n.
Proof.
  intros Hd Hc. destruct n; [|lia]. rewrite ceil_div_0 in Hc; lia.
Qed.

(** What the generator yields when resumed at [i], given fuel for every
    remaining element. *)
Lemma inGroupsOf_from_spec all groupSize :
  1 ≤ groupSize →
  ∀ fuel i, length all - i < fuel →
  ∃ groups,
    inGroupsOf_from fuel all groupSize i = Some groups
    ∧ concat groups = drop i all
    ∧ length groups = ceil_div (length all - i) groupSize
    ∧ Forall (fun group => 1 ≤ length group ≤ groupSize) groups
    ∧ (∀ k group, groups !! k = Some group → S k < length groups →
         length group = groupSize).
Proof.
  intros Hg. induction fuel as [|fuel IH]; intros i Hfuel; [lia|].
  simpl. destruct (decide (i < length all)) as [Hi|Hi].
  - rewrite inGroupsOf_next_Some by done.
    destruct (IH (i + groupSize)) as (rest & -> & Hcat & Hlen & Hall & Hfull);
      [lia|].
    eexists. split; [reflexivity|]. simpl.
    split; [|split; [|split]].
    + rewrite Hcat, <- drop_drop. apply take_drop.
    + rewrite Hlen, (ceil_div_step (length all - i)) by lia.
      do 2 f_equal. lia.
    + constructor; [|done].
      rewrite length_take, length_drop. lia.
    + intros [|k] group Hk Hlt; simpl in *.
      * injection Hk as <-. rewrite length_take, length_drop.
        assert (0 < length all - (i + groupSize)).
        { apply (ceil_div_pos _ groupSize); [done|]. lia. }
        lia.
      * apply (Hfull k); [done | lia].
  - rewrite inGroupsOf_next_None by lia.
    exists []. simpl. split; [done|].
    split; [by rewrite drop_ge by lia|].
    split; [|split; [constructor|]].
    + replace (length all - i) with 0 by lia. by rewrite ceil_div_0.
    + intros k group Hk. by rewrite lookup_nil in Hk.
Qed.

(** With [groupSize = 0] the loop variable never moves: on a non-empty
    array the generator does not end. *)
Lemma inGroupsOf_zero_diverges all fuel :
  all ≠ [] → inGroupsOf fuel all 0 = None.
Proof.
  intros Hne. unfold inGroupsOf.
  assert (Hlen : 0 < length all) by (destruct all; simpl; [done | lia]).
  induction fuel as [|fuel IH]; [done|]. simpl.
  rewrite inGroupsOf_next_Some by done. simpl. by rewrite IH.
Qed.
End Batcher.

(** C5. For every array [all] and every [groupSize >= 1], the generator
    [inGroupsOf] ends and yields exactly [ceil(length all / groupSize)]
    groups; their concatenation is [all] in the original order; every group
    has between 1 and [groupSize] elements and every group but the last has
    exactly [groupSize]; and when the caller gives no [filesPerCommit] the
    group size used is 100. *)
Theorem inGroupsOf_partition {T : Type} (all : list T) (groupSize fuel : nat) :
  1 ≤ groupSize →
  length all < fuel →
  (∃ groups : list (list T),
      inGroupsOf fuel all groupSize = Some groups
      ∧ length groups = ceil_div (length all) groupSize
      ∧ concat groups = all
      ∧ Forall (fun group => 1 ≤ length group ≤ groupSize) groups
      ∧ (∀ k group, groups !! k = Some group → S k < length groups →
           length group = groupSize))
  ∧ filesPerCommitOf None = 100
  ∧ (∀ options, filesPerCommit options = None →
       filesPerCommitOf (Some options) = 100)
  ∧ (∀ options n, filesPerCommit options = Some n →
       filesPerCommitOf (Some options) = n).
Proof.
  intros Hg Hfuel. split; [|split; [done|split]].
  - destruct (inGroupsOf_from_spec all groupSize Hg fuel 0)
      as (groups & Heq & Hcat & Hlen & Hall & Hfull); [lia|].
    exists groups. rewrite Nat.sub_0_r in Hlen. by rewrite drop_0 in Hcat.
  - intros options Hnone. unfold filesPerCommitOf. simpl. by rewrite Hnone.
  - intros options n Hsome. unfold filesPerCommitOf. simpl. by rewrite Hsome.
Qed.

(** The 250-change example of the spec: groups of sizes 100, 100 and 50. *)
Lemma inGroupsOf_partition_witness :
  ∃ groups : list (list nat),
    inGroupsOf 251 (seq 0 250) 100 = Some groups
    ∧ length groups = ceil_div 250 100
    ∧ concat groups = seq 0 250
    ∧ length <$> groups = [100; 100; 50].
Proof.
  destruct (inGroupsOf_partition (seq 0 250) 100 251) as [Hgroups _].
  - lia.
  - rewrite length_seq. lia.
  - destruct Hgroups as (groups & Heq & Hlen & Hcat & _).
    exists groups. rewrite length_seq in Hlen.
    split; [done|]. split; [done|]. split; [done|].
    vm_compute in Heq. injection Heq as <-. reflexivity.
Defined.

(* ===================================================================== *)
(** ** How a computation may change the world *)
(* ===================================================================== *)

Section Evolves.
Context (P : Call → Prop).

Lemma evolves_refl w : evolves P w w.
Proof.
  split; [done|]. split; [done|]. exists []. by rewrite app_nil_r.
Qed.

Lemma evolves_trans w1 w2 w3 :
  evolves P w1 w2 → evolves P w2 w3 → evolves P w1 w3.
Proof.
  intros (Ho1 & Hr1 & cs1 & Ht1 & Hp1) (Ho2 & Hr2 & cs2 & Ht2 & Hp2).
  split; [by etrans|]. split; [congruence|].
  exists (cs1 ++ cs2). rewrite Ht2, Ht1, app_assoc.
  split; [done|]. by apply Forall_app.
Qed.

Lemma evolves_weaken (Q : Call → Prop) w w' :
  (∀ c, P c → Q c) → evolves P w w' → evolves Q w w'.
Proof.
  intros HPQ (Ho & Hr & cs & Ht & Hp).
  split; [done|]. split; [done|]. exists cs. split; [done|].
  eapply Forall_impl; eauto.
Qed.

Lemma keeps_ret {A} (a : A) : keeps P (ret a).
Proof. intros w r w' [= <- <-]. apply evolves_refl. Qed.

Lemma keeps_throw {A} e : keeps P (@throw A e).
Proof. intros w r w' [= <- <-]. apply evolves_refl. Qed.

Lemma keeps_out_of_fuel {A} : keeps P (@out_of_fuel A).
Proof. intros w r w' [= <- <-]. apply evolves_refl. Qed.

Lemma keeps_bind {A B} (m : M A) (k : A → M B) :
  keeps P m → (∀ a, keeps P (k a)) → keeps P (bind m k).
Proof.
  intros Hm Hk w r w'. unfold bind.
  destruct (m w) as [[a|e|] w1] eqn:Hmw; intros Hrun.
  - eapply evolves_trans; [by eapply Hm | by eapply Hk].
  - injection Hrun as <- <-. by eapply Hm.
  - injection Hrun as <- <-. by eapply Hm.
Qed.

Lemma keeps_try_catch {A} (m : M A) (h : Error → M A) :
  keeps P m → (∀ e, keeps P (h e)) → keeps P (try_catch m h).
Proof.
  intros Hm Hh w r w'. unfold try_catch.
  destruct (m w) as [[a|e|] w1] eqn:Hmw; intros Hrun.
  - injection Hrun as <- <-. by eapply Hm.
  - eapply evolves_trans; [by eapply Hm | by eapply Hh].
  - injection Hrun as <- <-. by eapply Hm.
Qed.

Lemma keeps_foldM {A B} (f : A → B → M A) xs :
  (∀ a x, keeps P (f a x)) → ∀ acc, keeps P (foldM f xs acc).
Proof.
  intros Hf. induction xs as [|x xs IH]; intros acc; simpl.
  - apply keeps_ret.
  - apply keeps_bind; [apply Hf | intros a; apply IH].
Qed.

(** A body that touches neither the trace nor the references. *)
Lemma keeps_call {A} c (body : M A) :
  P c →
  (∀ w r w', body w = (r, w') →
     objects w `prefix_of` objects w' ∧ refs w' = refs w
     ∧ trace w' = trace w) →
  keeps P (call c body).
Proof.
  intros Hc Hbody w r w'. unfold call.
  set (w1 := mkWorld _ _ _ _).
  assert (Hw1 : evolves P w w1).
  { split; [done|]. split; [done|]. exists [c]. split; [done|].
    by constructor. }
  destruct (faults w) as [|[] fs]; intros Hrun.
  - apply Hbody in Hrun as (Ho & Hr & Ht).
    destruct Hw1 as (Ho1 & Hr1 & cs & Ht1 & Hp1).
    split; [by etrans|]. split; [congruence|].
    exists cs. by rewrite Ht.
  - by injection Hrun as <- <-.
  - apply Hbody in Hrun as (Ho & Hr & Ht).
    destruct Hw1 as (Ho1 & Hr1 & cs & Ht1 & Hp1).
    split; [by etrans|]. split; [congruence|].
    exists cs. by rewrite Ht.
Qed.

Lemma store_object_inert o w r w' :
  store_object o w = (r, w') →
  objects w `prefix_of` objects w' ∧ refs w' = refs w ∧ trace w' = trace w.
Proof.
  unfold store_object. destruct (findIndex _ _); intros [= <- <-]; simpl.
  - done.
  - split; [by apply prefix_app_r|done].
Qed.
End Evolves.

Lemma keeps_readTree oid : keeps is_tree_call (readTree oid).
Proof.
  apply keeps_call; [done|]. intros w r w'.
  destruct (objects w !! oid) as [[]|]; by intros [= <- <-].
Qed.

Lemma keeps_writeBlob blob : keeps is_tree_call (writeBlob blob).
Proof. apply keeps_call; [done|]. apply store_object_inert. Qed.

Lemma keeps_writeTree entries : keeps is_tree_call (writeTree entries).
Proof. apply keeps_call; [done|]. apply store_object_inert. Qed.

Lemma keeps_getCommit sha : keeps is_createTree_call (getCommit sha).
Proof.
  apply keeps_call; [done|]. intros w r w'.
  destruct (objects w !! sha) as [[]|]; by intros [= <- <-].
Qed.

Lemma keeps_weaken {A} (P Q : Call → Prop) (m : M A) :
  (∀ c, P c → Q c) → keeps P m → keeps Q m.
Proof. intros HPQ Hm w r w' Hrun. eapply evolves_weaken; eauto. Qed.

Lemma keeps_updateTreeRecursively remainingParts :
  ∀ existingTree part fileData,
    keeps is_tree_call
      (updateTreeRecursively existingTree part remainingParts fileData).
Proof.
  induction remainingParts as [|part' rest IH]; intros existingTree part fileData;
    simpl.
  - apply keeps_bind.
    + destruct (obj_content fileData).
      * apply keeps_throw.
      * apply keeps_ret.
      * apply keeps_bind; [apply keeps_writeBlob | intros; apply keeps_ret].
    + intros [oid|]; [apply keeps_ret|].
      destruct (findIndex _ _); apply keeps_ret.
  - apply keeps_bind.
    + destruct (_ ≫= _) as [entry|]; [|apply keeps_ret].
      destruct (entry_type entry); try apply keeps_ret. apply keeps_readTree.
    + intros subTree. apply keeps_bind; [apply IH|].
      intros updated. apply keeps_bind; [apply keeps_writeTree|].
      intros oid. apply keeps_ret.
Qed.

Lemma keeps_applyChange currentTree fileData :
  keeps is_tree_call (applyChange currentTree fileData).
Proof.
  unfold applyChange. destruct (split_path _) as [part rest].
  apply keeps_updateTreeRecursively.
Qed.

Lemma keeps_createTree refHead tree :
  keeps is_createTree_call (createTree refHead tree).
Proof.
  unfold createTree. apply keeps_try_catch; [|intros; apply keeps_throw].
  apply keeps_bind; [apply keeps_getCommit|]. intros oldTreeSha.
  apply (keeps_weaken is_tree_call); [by intros []|].
  apply keeps_bind; [apply keeps_readTree|]. intros currentTree.
  apply keeps_bind; [|intros; apply keeps_writeTree].
  apply keeps_foldM. intros; apply keeps_applyChange.
Qed.

Lemma keeps_createCommit refHead treeSha message options :
  keeps is_createCommit_call (createCommit refHead treeSha message options).
Proof.
  unfold createCommit. apply keeps_try_catch; [|intros; apply keeps_throw].
  apply keeps_bind.
  - destruct (signer options) as [sg|]; [|apply keeps_ret].
    apply keeps_bind; [|intros; apply keeps_ret].
    apply keeps_call; [done|]. intros w r w'.
    destruct (sg _); by intros [= <- <-].
  - intros signature. apply keeps_bind.
    + apply keeps_call; [done|]. by intros w r w' [= <- <-].
    + intros _. apply keeps_call; [done|]. apply store_object_inert.
Qed.

Lemma keeps_commitGroups fuel :
  ∀ tree filesPerCommit i refHead commitMessage options,
    keeps is_batch_call
      (commitGroups fuel tree filesPerCommit i refHead commitMessage options).
Proof.
  induction fuel as [|fuel IH]; intros; simpl; [apply keeps_out_of_fuel|].
  destruct (inGroupsOf_next _ _ _) as [[treeGroup i']|]; [|apply keeps_ret].
  apply keeps_bind.
  { eapply keeps_weaken; [|apply keeps_createTree]. by intros [] Hc. }
  intros treeSha. apply keeps_bind; [|intros; apply IH].
  eapply keeps_weaken; [|apply keeps_createCommit]. by intros [] Hc.
Qed.

(* ===================================================================== *)
(** ** Running a computation step by step *)
(* ===================================================================== *)

Lemma bind_Ok {A B} (m : M A) (k : A → M B) w b w' :
  bind m k w = (Ok b, w') ↔ ∃ a w1, m w = (Ok a, w1) ∧ k a w1 = (Ok b, w').
Proof.
  unfold bind. split.
  - destruct (m w) as [[a|e|] w1]; [eauto | done | done].
  - by intros (a & w1 & -> & Hk).
Qed.

Lemma bind_Err {A B} (m : M A) (k : A → M B) w e w' :
  bind m k w = (Err e, w') ↔
  m w = (Err e, w') ∨ ∃ a w1, m w = (Ok a, w1) ∧ k a w1 = (Err e, w').
Proof.
  unfold bind. split.
  - destruct (m w) as [[a|e'|] w1]; [eauto | | done].
    intros [= <- <-]. by left.
  - by intros [->|(a & w1 & -> & Hk)].
Qed.

Lemma try_catch_throw_Ok {A} (m : M A) (f : Error → Error) w a w' :
  try_catch m (fun e => throw (f e)) w = (Ok a, w') ↔ m w = (Ok a, w').
Proof.
  unfold try_catch, throw. destruct (m w) as [[a'|e|] w1]; split; congruence.
Qed.

Lemma try_catch_throw_Err {A} (m : M A) (f : Error → Error) w e w' :
  try_catch m (fun e => throw (f e)) w = (Err e, w') ↔
  ∃ cause, m w = (Err cause, w') ∧ e = f cause.
Proof.
  unfold try_catch, throw. destruct (m w) as [[a'|e'|] w1]; split.
  - done.
  - by intros (cause & ? & _).
  - intros [= <- <-]. eauto.
  - by intros (cause & [= -> ->] & ->).
  - done.
  - by intros (cause & ? & _).
Qed.

Lemma call_Ok {A} c (body : M A) w a w' :
  call c body w = (Ok a, w') ↔
  faults w !! 0 ≠ Some true ∧ body (called c w) = (Ok a, w').
Proof.
  unfold call, called. destruct (faults w) as [|[] fs]; simpl; split;
    try done; try (by intros [? ?]).
Qed.

Lemma call_no_fault {A} c (body : M A) w :
  faults w !! 0 ≠ Some true → call c body w = body (called c w).
Proof. unfold call, called. by destruct (faults w) as [|[] fs]. Qed.

Lemma call_fault {A} c (body : M A) w :
  faults w !! 0 = Some true →
  call c body w = (Err (TransportError c), called c w).
Proof. unfold call, called. by destruct (faults w) as [|[] fs]. Qed.

Lemma findIndex_Some {A} (p : A → bool) (l : list A) (i : nat) :
  findIndex p l = Some i ↔
  (∃ x, l !! i = Some x ∧ p x = true)
  ∧ ∀ j y, j < i → l !! j = Some y → p y = false.
Proof.
  revert i. induction l as [|x l IH]; intros i; simpl.
  - split; [done|]. by intros [(y & Hy & _) _].
  - destruct (p x) eqn:Hpx.
    + split.
      * intros [= <-]. split; [by exists x|]. lia.
      * intros [(y & Hy & Hpy) Hlt]. destruct i as [|i]; [done|].
        specialize (Hlt 0 x). simpl in Hlt. rewrite Hlt in Hpx; [done|lia|done].
    + destruct i as [|i].
      * split.
        -- destruct (findIndex p l); done.
        -- intros [(y & [= <-] & Hpy) _]. congruence.
      * rewrite fmap_Some. split.
        -- intros (k & Hk & [= <-]). apply IH in Hk as [Hx Hlt].
           split; [done|]. intros [|j] y Hj; simpl; [by intros [= <-]|].
           apply Hlt. lia.
        -- intros [Hx Hlt]. exists i. split; [|done]. apply IH.
           split; [done|]. intros j z Hj Hz. apply (Hlt (S j)); [lia|done].
Qed.

Lemma findIndex_None {A} (p : A → bool) (l : list A) :
  findIndex p l = None ↔ Forall (fun x => p x = false) l.
Proof.
  induction l as [|x l IH]; simpl; [by split|].
  destruct (p x) eqn:Hpx.
  - split; [done|]. intros Hall. apply Forall_cons in Hall as [? _]. congruence.
  - destruct (findIndex p l); simpl.
    + split; [done|]. intros Hall. apply Forall_cons in Hall as [_ Hl].
      by apply IH in Hl.
    + split; [|done]. intros _. constructor; [done|]. by apply IH.
Qed.

(** Writing an object always yields a name under which it is stored. *)
Lemma store_object_spec o w :
  ∃ i w', store_object o w = (Ok i, w')
    ∧ objects w' !! i = Some o
    ∧ objects w `prefix_of` objects w'
    ∧ refs w' = refs w ∧ trace w' = trace w ∧ faults w' = faults w.
Proof.
  unfold store_object.
  destruct (findIndex _ _) as [i|] eqn:Hfind.
  - exists i, w. apply findIndex_Some in Hfind as [(x & Hx & Hp) _].
    apply bool_decide_eq_true in Hp as ->. done.
  - eexists _, _. split; [done|]. simpl.
    split; [|split; [by apply prefix_app_r|done]].
    rewrite lookup_app_r by done. by rewrite Nat.sub_diag.
Qed.

(* ===================================================================== *)
(** ** Failures of the batch loop *)
(* ===================================================================== *)






(* ===================================================================== *)
(** ** The reference update *)
(* ===================================================================== *)

(** C8. [updateRef] makes one [writeRef] call for [refs/heads/<branch>].
    Every failure is a [CommitError] naming the reference update, and its
    cause tells a rejected non-fast-forward from a failure on the way.
    Without [force] an update that is not a fast-forward fails and leaves
    the references alone; with [force], unless the call fails on the way,
    the reference is overwritten. *)
Theorem updateRef_spec (origin : BranchDomain) (newSha : Oid) (force : bool)
    (w : World) :
  let this_call := CallWriteRef (head_ref origin) newSha force in
  let context := UpdatingRef (branch origin) newSha in
  (∀ e w', updateRef origin newSha force w = (Err e, w') →
     refs w' = refs w ∧ trace w' = trace w ++ [this_call]
     ∧ ((e = CommitError context (TransportError this_call)
          ∧ faults w !! 0 = Some true)
        ∨ (e = CommitError context (NonFastForwardError (head_ref origin))
          ∧ faults w !! 0 ≠ Some true ∧ force = false
          ∧ fast_forward w (head_ref origin) newSha = false)))
  ∧ (force = false → fast_forward w (head_ref origin) newSha = false →
       ∃ cause, updateRef origin newSha force w
                = (Err (CommitError context cause), called this_call w))
  ∧ (force = true → faults w !! 0 ≠ Some true →
       updateRef origin newSha force w
       = (Ok tt, set_refs (<[head_ref origin := newSha]> (refs w))
                   (called this_call w))).
Proof.
  intros this_call context. unfold updateRef, try_catch, writeRef.
  fold this_call.
  destruct (decide (faults w !! 0 = Some true)) as [Hfault|Hfault].
  - rewrite call_fault by done. simpl. split; [|split].
    + intros e w' [= <- <-]. split; [done|]. split; [done|]. by left.
    + intros _ _. eauto.
    + done.
  - rewrite call_no_fault by done.
    assert (Hff : fast_forward (called this_call w) (head_ref origin) newSha
                  = fast_forward w (head_ref origin) newSha) by done.
    rewrite Hff.
    destruct force; simpl.
    + split; [done|]. split; done.
    + destruct (fast_forward w _ _) eqn:Hw; simpl.
      * split; [done|]. split; done.
      * split; [|split; [eauto|done]].
        intros e w' [= <- <-]. split; [done|]. split; [done|]. by right.
Qed.

Lemma updateRef_spec_witness :
  (∃ cause,
      updateRef main_branch 2 false (forked_repo [])
      = (Err (CommitError (UpdatingRef "main" 2) cause),
         called (CallWriteRef "refs/heads/main" 2 false) (forked_repo [])))
  ∧ updateRef main_branch 2 true (forked_repo [])
    = (Ok tt, set_refs (<["refs/heads/main" := 2]> (refs (forked_repo [])))
                (called (CallWriteRef "refs/heads/main" 2 true)
                   (forked_repo []))).
Proof.
  split.
  - apply (updateRef_spec main_branch 2 false (forked_repo [])); reflexivity.
  - apply (updateRef_spec main_branch 2 true (forked_repo [])); [reflexivity|].
    discriminate.
Defined.

(* ===================================================================== *)
(** ** An empty change set *)
(* ===================================================================== *)

Lemma push_run force w :
  objects (push force w).2 = objects w
  ∧ trace (push force w).2 = trace w ++ [CallPush force].
Proof. unfold push, call, ret. by destruct (faults w) as [|[] fs]. Qed.

Lemma updateRef_run origin newSha force w :
  objects (updateRef origin newSha force w).2 = objects w
  ∧ trace (updateRef origin newSha force w).2
    = trace w ++ [CallWriteRef (head_ref origin) newSha force].
Proof.
  unfold updateRef, try_catch, writeRef, call.
  destruct (faults w) as [|[] fs]; simpl; try done;
    by destruct (force || _).
Qed.

(** C10. With an empty change set the batch loop yields no group:
    [commitAndPush] goes straight to the reference update with the supplied
    head, then pushes.  No object is created and the first call is the
    reference write; if no call fails on the way and the store accepts the
    update, the call succeeds having written the reference and pushed. *)
Theorem commitAndPush_empty (fuel : nat) (refHead : Oid)
    (originBranch : BranchDomain) (commitMessage : string) (force : bool)
    (options : option Options) (w : World) :
  0 < fuel →
  let write := CallWriteRef (head_ref originBranch) refHead force in
  commitAndPush fuel refHead [] originBranch commitMessage force options w
  = (updateRef originBranch refHead force ;;; push force) w
  ∧ (∀ r w',
       commitAndPush fuel refHead [] originBranch commitMessage force options w
       = (r, w') →
       objects w' = objects w
       ∧ ∃ calls, trace w' = trace w ++ write :: calls ∧ commits_of calls = [])
  ∧ (true ∉ faults w →
     force || fast_forward w (head_ref originBranch) refHead = true →
     ∃ w',
       commitAndPush fuel refHead [] originBranch commitMessage force options w
       = (Ok tt, w')
       ∧ refs w' = <[head_ref originBranch := refHead]> (refs w)
       ∧ trace w' = trace w ++ [write; CallPush force]).
Proof.
  intros Hfuel write.
  assert (Hstart :
    commitAndPush fuel refHead [] originBranch commitMessage force options w
    = (updateRef originBranch refHead force ;;; push force) w).
  { destruct fuel as [|fuel]; [lia|]. reflexivity. }
  rewrite Hstart. split; [done|].
  unfold bind. split.
  - intros r w'.
    destruct (updateRef_run originBranch refHead force w) as (Ho1 & Ht1).
    fold write in Ht1.
    destruct (updateRef originBranch refHead force w) as [[[]|e|] w1];
      simpl in *.
    + destruct (push_run force w1) as (Ho2 & Ht2).
      destruct (push force w1) as [r2 w2]; simpl in *.
      intros [= <- <-]. split; [congruence|].
      exists [CallPush force]. split; [|done].
      rewrite Ht2, Ht1. by rewrite <- app_assoc.
    + intros [= <- <-]. split; [done|]. exists []. done.
    + intros [= <- <-]. split; [done|]. exists []. done.
  - intros Hfaults Haccept.
    assert (Hfs : ∀ k, faults w !! k ≠ Some true).
    { intros k Hk. apply Hfaults. by eapply list_elem_of_lookup_2. }
    unfold updateRef, try_catch, writeRef, push.
    rewrite call_no_fault by apply Hfs.
    assert (Hff : fast_forward (called write w) (head_ref originBranch) refHead
                  = fast_forward w (head_ref originBranch) refHead) by done.
    fold write. rewrite Hff, Haccept. rewrite call_no_fault.
    + eexists. split; [reflexivity|]. simpl. split; [done|].
      by rewrite <- app_assoc.
    + simpl. rewrite lookup_tail. apply Hfs.
Qed.

Lemma commitAndPush_empty_witness :
  ∃ w',
    commitAndPush 1 1 [] main_branch "msg" false None (fresh_repo [])
    = (Ok tt, w')
    ∧ refs w' = {["refs/heads/main" := 1]}
    ∧ objects w' = objects (fresh_repo [])
    ∧ trace w' = [CallWriteRef "refs/heads/main" 1 false; CallPush false].
Proof.
  destruct (commitAndPush_empty 1 1 main_branch "msg" false None
              (fresh_repo [])) as (_ & Hobjs & Hok); [lia|].
  destruct Hok as (w' & Hrun & Hrefs & Htrace).
  - vm_compute. by intros Hin%elem_of_nil.
  - reflexivity.
  - exists w'. split; [exact Hrun|]. split; [exact Hrefs|].
    split; [|exact Htrace].
    by destruct (Hobjs _ _ Hrun) as [-> _].
Defined.

(* ===================================================================== *)
(** ** Every call of the source ends *)
(* ===================================================================== *)

Lemma returns_ret {A} (a : A) : returns (ret a).
Proof. by intros w. Qed.

Lemma returns_throw {A} e : returns (@throw A e).
Proof. by intros w. Qed.

Lemma returns_bind {A B} (m : M A) (k : A → M B) :
  returns m → (∀ a, returns (k a)) → returns (bind m k).
Proof.
  intros Hm Hk w. unfold bind. specialize (Hm w).
  destruct (m w) as [[a|e|] w1]; [apply Hk|done|done].
Qed.

Lemma returns_try_catch {A} (m : M A) (h : Error → M A) :
  returns m → (∀ e, returns (h e)) → returns (try_catch m h).
Proof.
  intros Hm Hh w. unfold try_catch. specialize (Hm w).
  destruct (m w) as [[a|e|] w1]; [done|apply Hh|done].
Qed.

Lemma returns_foldM {A B} (f : A → B → M A) xs :
  (∀ a x, returns (f a x)) → ∀ acc, returns (foldM f xs acc).
Proof.
  intros Hf. induction xs as [|x xs IH]; intros acc; simpl.
  - apply returns_ret.
  - apply returns_bind; [apply Hf | intros a; apply IH].
Qed.

Lemma returns_call {A} c (body : M A) : returns body → returns (call c body).
Proof.
  intros Hbody w. unfold call. destruct (faults w) as [|[] fs]; try done;
    apply Hbody.
Qed.

Lemma returns_store_object o : returns (store_object o).
Proof. intros w. unfold store_object. by destruct (findIndex _ _). Qed.

Lemma returns_readTree oid : returns (readTree oid).
Proof.
  apply returns_call. intros w. by destruct (objects w !! oid) as [[]|].
Qed.

Lemma returns_writeTree entries : returns (writeTree entries).
Proof. apply returns_call, returns_store_object. Qed.

Lemma returns_updateTreeRecursively remainingParts :
  ∀ existingTree part fileData,
    returns (updateTreeRecursively existingTree part remainingParts fileData).
Proof.
  induction remainingParts as [|part' rest IH]; intros existingTree part fileData;
    simpl.
  - apply returns_bind.
    + destruct (obj_content fileData).
      * apply returns_throw.
      * apply returns_ret.
      * apply returns_bind; [|intros; apply returns_ret].
        apply returns_call, returns_store_object.
    + intros [oid|]; [apply returns_ret|].
      destruct (findIndex _ _); apply returns_ret.
  - apply returns_bind.
    + destruct (_ ≫= _) as [entry|]; [|apply returns_ret].
      destruct (entry_type entry); try apply returns_ret.
      apply returns_readTree.
    + intros subTree. apply returns_bind; [apply IH|].
      intros updated. apply returns_bind; [apply returns_writeTree|].
      intros oid. apply returns_ret.
Qed.

Lemma returns_createTree refHead tree : returns (createTree refHead tree).
Proof.
  unfold createTree. apply returns_try_catch; [|intros; apply returns_throw].
  apply returns_bind.
  { apply returns_call. intros w. by destruct (objects w !! refHead) as [[]|]. }
  intros oldTreeSha. apply returns_bind; [apply returns_readTree|].
  intros currentTree. apply returns_bind; [|intros; apply returns_writeTree].
  apply returns_foldM. intros a x. unfold applyChange.
  destruct (split_path _). apply returns_updateTreeRecursively.
Qed.

Lemma returns_createCommit refHead treeSha message options :
  returns (createCommit refHead treeSha message options).
Proof.
  unfold createCommit. apply returns_try_catch; [|intros; apply returns_throw].
  apply returns_bind.
  - destruct (signer options) as [sg|]; [|apply returns_ret].
    apply returns_bind; [|intros; apply returns_ret].
    apply returns_call. intros w. by destruct (sg _).
  - intros signature. apply returns_bind.
    + apply returns_call, returns_ret.
    + intros _. apply returns_call, returns_store_object.
Qed.

(** With a positive group size the loop ends within one iteration per
    remaining change, and one more to see the end. *)
Lemma commitGroups_enough_fuel fuel :
  ∀ tree filesPerCommit (i : nat) refHead commitMessage options,
    1 ≤ filesPerCommit → length tree - i < fuel →
    returns
      (commitGroups fuel tree filesPerCommit i refHead commitMessage options).
Proof.
  induction fuel as [|fuel IH]; intros * Hg Hfuel; [lia|]. simpl.
  unfold inGroupsOf_next. case_bool_decide; [|apply returns_ret].
  apply returns_bind; [apply returns_createTree|]. intros treeSha.
  apply returns_bind; [apply returns_createCommit|]. intros refHead'.
  apply IH; [done|lia].
Qed.

(* ===================================================================== *)
(** ** The commit chain *)
(* ===================================================================== *)

Lemma commits_of_app calls1 calls2 :
  commits_of (calls1 ++ calls2) = commits_of calls1 ++ commits_of calls2.
Proof. unfold commits_of. apply omap_app. Qed.

Lemma commits_of_nil (P : Call → Prop) calls :
  (∀ c, P (CallCommit c) → False) → Forall P calls → commits_of calls = [].
Proof.
  intros HP. induction 1 as [|c calls Hc _ IH]; [done|].
  destruct c; try exact IH. by apply HP in Hc.
Qed.

Lemma commit_Ok c w sha w' :
  commit c w = (Ok sha, w') →
  objects w' !! sha = Some (Commit c) ∧ trace w' = trace w ++ [CallCommit c].
Proof.
  unfold commit. intros [_ Hrun]%call_Ok.
  destruct (store_object_spec (Commit c) (called (CallCommit c) w))
    as (i & w1 & Hw1 & Hobj & _ & _ & Htrace & _).
  rewrite Hw1 in Hrun. injection Hrun as <- <-. done.
Qed.

Lemma createCommit_Ok refHead treeSha message options w sha w' :
  createCommit refHead treeSha message options w = (Ok sha, w') →
  ∃ c calls,
    commit_parent c = [refHead] ∧ commit_message c = message
    ∧ commit_tree c = treeSha
    ∧ objects w' !! sha = Some (Commit c)
    ∧ trace w' = trace w ++ calls ∧ commits_of calls = [c].
Proof.
  unfold createCommit. intros Hrun.
  apply (proj1 (try_catch_throw_Ok _ (CommitError (CreatingCommit treeSha))
                  _ _ _)) in Hrun.
  apply bind_Ok in Hrun as (signature & w1 & Hsign & Hrun).
  apply bind_Ok in Hrun as ([] & w2 & Hfetch & Hrun).
  apply commit_Ok in Hrun as [Hobj Htrace].
  assert (Hsigned : evolves (fun c => c ≠ CallFetch ∧ is_createCommit_call c
                               ∧ ∀ c', c ≠ CallCommit c') w w1).
  { destruct (signer options) as [sg|].
    - apply bind_Ok in Hsign as (s & w0 & Hsg & [= <- <-]). revert Hsg.
      apply keeps_call; [done|]. intros wa r wb.
      destruct (sg _); by intros [= <- <-].
    - injection Hsign as <- <-. apply evolves_refl. }
  destruct Hsigned as (_ & _ & calls1 & Ht1 & Hc1).
  apply call_Ok in Hfetch as [_ [= <-]].
  set (c := mkCommit _ _ _ _ _ _) in *.
  exists c, (calls1 ++ [CallFetch; CallCommit c]).
  split; [done|]. split; [done|]. split; [done|]. split; [exact Hobj|].
  split.
  - rewrite Htrace. simpl. rewrite Ht1. by rewrite <- !app_assoc.
  - rewrite commits_of_app.
    rewrite (commits_of_nil _ calls1 (fun c H => proj2 (proj2 H) c eq_refl) Hc1).
    done.
Qed.

Lemma createTree_no_commit refHead tree w r w' :
  createTree refHead tree w = (r, w') →
  objects w `prefix_of` objects w'
  ∧ ∃ calls, trace w' = trace w ++ calls ∧ commits_of calls = [].
Proof.
  intros (Hobjs & _ & calls & Ht & Hcalls)%keeps_createTree.
  split; [done|]. exists calls. split; [done|].
  by apply (commits_of_nil is_createTree_call).
Qed.

(** The loop resumed at [i]: one commit per remaining group, each on top of
    the one before. *)
Lemma commitGroups_chain fuel :
  ∀ tree filesPerCommit i refHead commitMessage options w head w',
    commitGroups fuel tree filesPerCommit i refHead commitMessage options w
    = (Ok head, w') →
    ∃ groups shas calls,
      inGroupsOf_from fuel tree filesPerCommit i = Some groups
      ∧ length shas = length groups
      ∧ trace w' = trace w ++ calls
      ∧ Forall2 (fun c sha => objects w' !! sha = Some (Commit c))
          (commits_of calls) shas
      ∧ chained commitMessage refHead (commits_of calls) shas
      ∧ head = default refHead (last shas).
Proof.
  induction fuel as [|fuel IH]; intros * Hrun; simpl in *; [done|].
  destruct (inGroupsOf_next _ _ _) as [[treeGroup i']|].
  - apply bind_Ok in Hrun as (treeSha & w1 & Htree & Hrun).
    apply bind_Ok in Hrun as (sha & w2 & Hcommit & Hrun).
    apply createTree_no_commit in Htree as (_ & calls1 & Ht1 & Hc1).
    apply createCommit_Ok in Hcommit
      as (c & calls2 & Hparent & Hmsg & _ & Hobj & Ht2 & Hc2).
    pose proof (keeps_commitGroups _ _ _ _ _ _ _ _ _ _ Hrun) as (Hprefix & _).
    apply IH in Hrun
      as (groups & shas & calls3 & -> & Hlen & Ht3 & Hobjs & Hchain & Hhead).
    exists (treeGroup :: groups), (sha :: shas), (calls1 ++ calls2 ++ calls3).
    split; [done|]. split; [simpl; congruence|].
    split; [by rewrite Ht3, Ht2, Ht1, <- !app_assoc|].
    rewrite !commits_of_app, Hc1, Hc2. simpl.
    split; [|split; [done|]].
    + constructor; [|done]. by eapply prefix_lookup_Some.
    + rewrite Hhead. destruct shas as [|sha' shas] using rev_ind; [done|].
      by rewrite app_comm_cons, !last_snoc.
  - injection Hrun as <- <-. exists [], [], []. rewrite app_nil_r. done.
Qed.

(** C6. With a group size of at least 1 and fuel for every change, the
    batch loop of [commitAndPush] ends; and when it completes from the base
    [refHead], it has created one commit per batch that [inGroupsOf] yields,
    [ceil(length tree / filesPerCommit)] in all; the first has [refHead] as
    its only parent and each later one has the commit created just before
    it as its only parent; every commit carries [commitMessage]; each is
    stored under the name the loop got for it; and the head the loop ends
    on is the last of them (the base itself when there is no batch). *)
Theorem commitGroups_linear_chain (fuel : nat) (tree : list TreeObject)
    (filesPerCommit : nat) (refHead : Oid) (commitMessage : string)
    (options : option Options) (w : World) :
  1 ≤ filesPerCommit →
  length tree < fuel →
  (∀ w', commitGroups fuel tree filesPerCommit 0 refHead commitMessage options w
         ≠ (OutOfFuel, w'))
  ∧ ∀ (head : Oid) (w' : World),
      commitGroups fuel tree filesPerCommit 0 refHead commitMessage options w
      = (Ok head, w') →
      ∃ (groups : list (list TreeObject)) (shas : list Oid)
        (calls : list Call),
        inGroupsOf fuel tree filesPerCommit = Some groups
        ∧ length groups = ceil_div (length tree) filesPerCommit
        ∧ length shas = length groups
        ∧ trace w' = trace w ++ calls
        ∧ Forall2 (fun c sha => objects w' !! sha = Some (Commit c))
            (commits_of calls) shas
        ∧ chained commitMessage refHead (commits_of calls) shas
        ∧ head = default refHead (last shas).
Proof.
  intros Hg Hfuel. split.
  - intros w' Hrun.
    apply (commitGroups_enough_fuel fuel tree filesPerCommit 0 refHead
             commitMessage options Hg ltac:(lia) w).
    by rewrite Hrun.
  - intros head w' Hrun.
    apply commitGroups_chain in Hrun
      as (groups & shas & calls & Hgroups & Hlen & Htrace & Hobjs & Hchain
          & Hhead).
    exists groups, shas, calls. split; [done|]. split; [|done].
    destruct (inGroupsOf_from_spec tree filesPerCommit Hg fuel 0 ltac:(lia))
      as (groups' & Hgroups' & _ & Hlen' & _).
    rewrite Nat.sub_0_r in Hlen'. congruence.
Qed.

(** Three changes in batches of one: three commits, 1 <- 4 <- 7 <- 10. *)
Lemma commitGroups_linear_chain_witness :
  let run :=
    commitGroups 4 (generateTreeObjects three_changes) 1 0 1 "msg" None
      (fresh_repo []) in
  run.1 = Ok 10
  ∧ ∃ (groups : list (list TreeObject)) (shas : list Oid) (calls : list Call),
      inGroupsOf 4 (generateTreeObjects three_changes) 1 = Some groups
      ∧ length groups = ceil_div 3 1
      ∧ length shas = length groups
      ∧ trace run.2 = trace (fresh_repo []) ++ calls
      ∧ Forall2 (fun c sha => objects run.2 !! sha = Some (Commit c))
          (commits_of calls) shas
      ∧ chained "msg" 1 (commits_of calls) shas
      ∧ 10 = default 1 (last shas).
Proof.
  intros run. split; [reflexivity|].
  destruct (commitGroups_linear_chain 4 (generateTreeObjects three_changes) 1
              1 "msg" None (fresh_repo [])) as [_ Hchain].
  - lia.
  - simpl. lia.
  - apply (Hchain 10 run.2). vm_compute. reflexivity.
Defined.

(* ===================================================================== *)
(** ** Reading a tree by path *)
(* ===================================================================== *)

Section Listings.
Implicit Types (l : list TreeEntry) (entry : TreeEntry) (i n : nat).
Implicit Types (name part : string).

Lemma has_path_true part entry :
  has_path part entry = true ↔ entry_path entry = part.
Proof. apply String.eqb_eq. Qed.

Lemma has_path_false part entry :
  has_path part entry = false ↔ entry_path entry ≠ part.
Proof. apply String.eqb_neq. Qed.

Lemma find_findIndex {A} (p : A → bool) (xs : list A) :
  find p xs = findIndex p xs ≫= (fun i => xs !! i).
Proof.
  induction xs as [|x xs IH]; simpl; [done|].
  destruct (p x); [done|]. rewrite IH. by destruct (findIndex p xs).
Qed.

Lemma find_app_miss {A} (p : A → bool) (xs : list A) (y : A) :
  p y = false → find p (xs ++ [y]) = find p xs.
Proof.
  intros Hy. induction xs as [|x xs IH]; simpl; [by rewrite Hy|].
  by destruct (p x).
Qed.

Lemma find_insert_miss {A} (p : A → bool) (xs : list A) (i : nat) (x y : A) :
  xs !! i = Some x → p x = false → p y = false →
  find p (<[i := y]> xs) = find p xs.
Proof.
  revert i. induction xs as [|z xs IH]; intros [|i] Hi Hx Hy; simpl in *;
    try done.
  - injection Hi as ->. by rewrite Hx, Hy.
  - destruct (p z); [done|]. by apply IH.
Qed.

Lemma find_delete_miss {A} (p : A → bool) (xs : list A) (i : nat) (x : A) :
  xs !! i = Some x → p x = false → find p (delete i xs) = find p xs.
Proof.
  revert i. induction xs as [|z xs IH]; intros [|i] Hi Hx; simpl in *;
    try done.
  - injection Hi as ->. by rewrite Hx.
  - destruct (p z); [done|]. by apply IH.
Qed.

Lemma find_None_Forall {A} (p : A → bool) (xs : list A) :
  find p xs = None ↔ Forall (fun x => p x = false) xs.
Proof.
  rewrite find_findIndex, <- findIndex_None.
  destruct (findIndex p xs) as [i|] eqn:Hi; simpl; [|done].
  apply findIndex_Some in Hi as [(x & -> & _) _]. done.
Qed.

(** After the upsert, the entry with the name is the new one. *)
Lemma find_upsert_hit l part entry :
  entry_path entry = part →
  find (has_path part) (upsert l (findIndex (has_path part) l) entry)
  = Some entry.
Proof.
  intros Hname. apply has_path_true in Hname.
  induction l as [|e l IH]; simpl.
  - by rewrite Hname.
  - destruct (has_path part e) eqn:He; simpl.
    + by rewrite Hname.
    + destruct (findIndex (has_path part) l) as [i|]; simpl in *;
        by rewrite He.
Qed.

(** Entries with another name are found as before. *)
Lemma find_upsert_miss l part name entry :
  entry_path entry = part → name ≠ part →
  find (has_path name) (upsert l (findIndex (has_path part) l) entry)
  = find (has_path name) l.
Proof.
  intros Hname Hne.
  assert (Hmiss : has_path name entry = false).
  { apply has_path_false. congruence. }
  destruct (findIndex (has_path part) l) as [i|] eqn:Hi; simpl.
  - apply findIndex_Some in Hi as [(e & He & Hp) _].
    apply (find_insert_miss _ _ _ e); [done| |done].
    apply has_path_true in Hp. apply has_path_false. congruence.
  - by apply find_app_miss.
Qed.

Lemma find_delete_other l part name i :
  findIndex (has_path part) l = Some i → name ≠ part →
  find (has_path name) (delete i l) = find (has_path name) l.
Proof.
  intros Hi Hne. apply findIndex_Some in Hi as [(e & He & Hp) _].
  apply (find_delete_miss _ _ _ e); [done|].
  apply has_path_true in Hp. apply has_path_false. congruence.
Qed.

Lemma find_delete_gone l part i :
  unique_names l → findIndex (has_path part) l = Some i →
  find (has_path part) (delete i l) = None.
Proof.
  intros Huniq Hi. apply findIndex_Some in Hi as [(e & He & Hp) _].
  apply has_path_true in Hp.
  apply find_None_Forall, Forall_forall. intros e' Hin.
  apply has_path_false. intros He'.
  apply list_elem_of_lookup in Hin as [j Hj].
  unfold unique_names in Huniq.
  rewrite list_lookup_delete in Hj.
  set (j' := if decide (j < i) then j else S j) in *.
  assert (j' ≠ i) by (unfold j'; case_decide; lia).
  assert ((entry_path <$> l) !! j' = Some part)
    by (rewrite list_lookup_fmap, Hj; simpl; congruence).
  assert ((entry_path <$> l) !! i = Some part)
    by (rewrite list_lookup_fmap, He; simpl; congruence).
  by eapply (NoDup_lookup _ j' i) in Huniq.
Qed.

Lemma unique_names_upsert l part entry :
  entry_path entry = part → unique_names l →
  unique_names (upsert l (findIndex (has_path part) l) entry).
Proof.
  unfold unique_names. intros Hname Huniq.
  destruct (findIndex (has_path part) l) as [i|] eqn:Hi; simpl.
  - apply findIndex_Some in Hi as [(e & He & Hp) _].
    apply has_path_true in Hp.
    rewrite list_fmap_insert, list_insert_id; [done|].
    rewrite list_lookup_fmap, He. simpl. congruence.
  - apply findIndex_None in Hi.
    rewrite fmap_app. simpl. apply NoDup_app. split; [done|].
    split; [|apply NoDup_singleton].
    intros name Hin ->%list_elem_of_singleton.
    apply list_elem_of_fmap in Hin as (e & He & Hin).
    rewrite Forall_forall in Hi. apply Hi in Hin.
    apply has_path_false in Hin. congruence.
Qed.

Lemma unique_names_delete l i : unique_names l → unique_names (delete i l).
Proof.
  unfold unique_names. intros Huniq.
  eapply sublist_NoDup; [exact Huniq|].
  apply fmap_sublist, sublist_delete.
Qed.

Lemma closed_listing_mono n n' l :
  n ≤ n' → closed_listing n l → closed_listing n' l.
Proof.
  intros Hle Hl. unfold closed_listing in *. eapply Forall_impl; [exact Hl|].
  intros e He Ht. specialize (He Ht). simpl in *. lia.
Qed.

Lemma closed_listing_upsert n l existingIndex entry :
  closed_listing n l → entry_oid entry < n →
  closed_listing n (upsert l existingIndex entry).
Proof.
  unfold closed_listing. intros Hl He.
  destruct existingIndex as [i|]; simpl.
  - apply Forall_insert; [done|]. by intros _.
  - apply Forall_app. split; [done|]. by constructor.
Qed.

Lemma closed_listing_delete n l i :
  closed_listing n l → closed_listing n (delete i l).
Proof. unfold closed_listing. apply Forall_delete. Qed.
End Listings.

(* ===================================================================== *)
(** ** The store under writes *)
(* ===================================================================== *)

Section Store.
Implicit Types (os : list GitObject) (l : list TreeEntry).
Implicit Types (entry : TreeEntry) (w : World) (q : list string).

Lemma wf_store_lookup os i l :
  wf_store os → os !! i = Some (Tree l) →
  closed_listing (length os) l ∧ unique_names l.
Proof.
  intros Hwf Hi. unfold wf_store in Hwf. rewrite Forall_lookup in Hwf.
  apply (Hwf i (Tree l) Hi).
Qed.

Lemma wf_object_mono n n' o : n ≤ n' → wf_object n o → wf_object n' o.
Proof.
  intros Hle. destruct o; simpl; [done| |done].
  intros [Hc Hu]. split; [|done]. by eapply closed_listing_mono.
Qed.

Lemma wf_store_snoc os o :
  wf_store os → wf_object (length os) o → wf_store (os ++ [o]).
Proof.
  unfold wf_store. intros Hwf Ho. rewrite length_app. simpl.
  apply Forall_app. split.
  - eapply Forall_impl; [exact Hwf|]. intros o'. apply wf_object_mono. lia.
  - constructor; [|done]. eapply wf_object_mono; [|exact Ho]. lia.
Qed.

Lemma lookup_prefix_lt os os' (i : nat) :
  os `prefix_of` os' → i < length os → os' !! i = os !! i.
Proof.
  intros [k ->] Hi. by apply lookup_app_l.
Qed.

Lemma payload_mono os os' entry :
  os `prefix_of` os' →
  (entry_type entry ≠ TCommit → entry_oid entry < length os) →
  payload os' entry = payload os entry.
Proof.
  intros Hpre Hclosed. unfold payload.
  destruct (entry_type entry); [|done|done].
  by rewrite (lookup_prefix_lt os os') by auto.
Qed.

Lemma subtree_mono os os' entry :
  os `prefix_of` os' →
  (entry_type entry ≠ TCommit → entry_oid entry < length os) →
  subtree os' entry = subtree os entry.
Proof.
  intros Hpre Hclosed. unfold subtree.
  destruct (entry_type entry); [done| |done].
  by rewrite (lookup_prefix_lt os os') by auto.
Qed.

Lemma subtree_Some os entry l :
  subtree os entry = Some l →
  entry_type entry = TTree ∧ os !! entry_oid entry = Some (Tree l).
Proof.
  unfold subtree. destruct (entry_type entry); [done| |done].
  destruct (os !! entry_oid entry) as [[]|]; try done.
  by intros [= ->].
Qed.

(** What a closed listing reads does not change when objects are added. *)
Lemma read_mono os os' q :
  wf_store os → os `prefix_of` os' →
  ∀ l, closed_listing (length os) l → read os' l q = read os l q.
Proof.
  intros Hwf Hpre. induction q as [|part rest IH]; intros l Hl; [done|].
  simpl. destruct (find (has_path part) l) as [entry|] eqn:Hfind; [|done].
  assert (Hentry : entry_type entry ≠ TCommit → entry_oid entry < length os).
  { apply find_some in Hfind as [Hin _].
    unfold closed_listing in Hl. rewrite Forall_forall in Hl.
    apply Hl. by apply list_elem_of_In. }
  rewrite (payload_mono os os'), (subtree_mono os os') by done.
  destruct rest as [|part' rest']; [done|].
  destruct (subtree os entry) as [l'|] eqn:Hsub; [|done].
  apply IH. apply subtree_Some in Hsub as [_ Hsub].
  by apply (wf_store_lookup os _ l') in Hsub as [? _].
Qed.

Lemma read_same_find os l1 l2 part rest :
  find (has_path part) l1 = find (has_path part) l2 →
  read os l1 (part :: rest) = read os l2 (part :: rest).
Proof. simpl. by intros ->. Qed.

Lemma read_found os l part rest entry :
  find (has_path part) l = Some entry →
  read os l (part :: rest)
  = match rest with
    | [] => Some (entry_mode entry, payload os entry)
    | _ :: _ =>
        match subtree os entry with
        | Some l' => read os l' rest
        | None => None
        end
    end.
Proof. simpl. by intros ->. Qed.

Lemma compare_paths_cons a p b q :
  compare_paths (a :: p) (b :: q)
  = if String.eqb a b then compare_paths p q else Apart.
Proof. done. Qed.

Lemma read_not_found os l part rest :
  find (has_path part) l = None → read os l (part :: rest) = None.
Proof. simpl. by intros ->. Qed.

Lemma store_object_wf o w i w' :
  store_object o w = (Ok i, w') →
  objects w' !! i = Some o
  ∧ objects w `prefix_of` objects w'
  ∧ i < length (objects w')
  ∧ (wf_store (objects w) → wf_object (length (objects w)) o →
     wf_store (objects w')).
Proof.
  unfold store_object.
  destruct (findIndex _ _) as [k|] eqn:Hfind; intros [= <- <-]; simpl.
  - apply findIndex_Some in Hfind as [(x & Hx & Hp) _].
    apply bool_decide_eq_true in Hp as ->.
    split; [done|]. split; [done|]. split; [by eapply lookup_lt_Some|done].
  - split; [by rewrite lookup_app_r, Nat.sub_diag|].
    split; [by apply prefix_app_r|].
    split; [rewrite length_app; simpl; lia|].
    apply wf_store_snoc.
Qed.

Lemma writeBlob_Ok blob w oid w' :
  writeBlob blob w = (Ok oid, w') →
  objects w' !! oid = Some (Blob blob)
  ∧ objects w `prefix_of` objects w'
  ∧ oid < length (objects w')
  ∧ (wf_store (objects w) → wf_store (objects w')).
Proof.
  unfold writeBlob. intros [_ Hrun]%call_Ok.
  apply store_object_wf in Hrun as (Hobj & Hpre & Hlt & Hwf).
  split; [done|]. split; [done|]. split; [done|].
  intros Hw. by apply Hwf.
Qed.

Lemma writeTree_Ok l w oid w' :
  writeTree l w = (Ok oid, w') →
  objects w' !! oid = Some (Tree l)
  ∧ objects w `prefix_of` objects w'
  ∧ oid < length (objects w')
  ∧ (wf_store (objects w) → closed_listing (length (objects w)) l →
     unique_names l → wf_store (objects w')).
Proof.
  unfold writeTree. intros [_ Hrun]%call_Ok.
  apply store_object_wf in Hrun as (Hobj & Hpre & Hlt & Hwf).
  split; [done|]. split; [done|]. split; [done|].
  intros Hw Hc Hu. by apply Hwf.
Qed.

Lemma readTree_Ok oid w l w' :
  readTree oid w = (Ok l, w') →
  objects w' = objects w ∧ objects w !! oid = Some (Tree l).
Proof.
  unfold readTree. intros [_ Hrun]%call_Ok. simpl in Hrun.
  destruct (objects w !! oid) as [[]|]; try done.
  by injection Hrun as <- <-.
Qed.

Lemma getCommit_Ok sha w treeSha w' :
  getCommit sha w = (Ok treeSha, w') →
  objects w' = objects w
  ∧ ∃ c, objects w !! sha = Some (Commit c) ∧ commit_tree c = treeSha.
Proof.
  unfold getCommit. intros [_ Hrun]%call_Ok. simpl in Hrun.
  destruct (objects w !! sha) as [[| |c]|]; try done.
  injection Hrun as <- <-. eauto.
Qed.

Lemma written_tail fileData rel part q old :
  q ≠ [] →
  written fileData rel (part :: q) old = written fileData rel q old.
Proof. intros Hq. destruct rel; try done. by destruct q. Qed.
End Store.

(* ===================================================================== *)
(** ** What one change does to every path *)
(* ===================================================================== *)

Lemma prefix_length_le {A} (l1 l2 : list A) :
  l1 `prefix_of` l2 → length l1 ≤ length l2.
Proof. intros [k ->]. rewrite length_app. lia. Qed.

(** The listing the directory branch starts from. *)
Lemma subTree_start existingTree part w subTree w1 :
  wf_store (objects w) →
  match findIndex (has_path part) existingTree
        ≫= (fun i => existingTree !! i) with
  | Some entry =>
      match entry_type entry with
      | TTree => readTree (entry_oid entry)
      | _ => ret []
      end
  | None => ret []
  end w = (Ok subTree, w1) →
  objects w1 = objects w
  ∧ closed_listing (length (objects w)) subTree
  ∧ unique_names subTree
  ∧ ∀ part' rest,
      read (objects w) existingTree (part :: part' :: rest)
      = read (objects w) subTree (part' :: rest).
Proof.
  intros Hwf. rewrite <- find_findIndex.
  assert (Hnil : closed_listing (length (objects w)) []
                 ∧ unique_names []) by (split; constructor).
  destruct (find (has_path part) existingTree) as [entry|] eqn:Hfind.
  - destruct (entry_type entry) eqn:Htype.
    + intros [= <- <-]. split; [done|]. split; [apply Hnil|].
      split; [apply Hnil|]. intros part' rest. simpl.
      rewrite Hfind. unfold subtree. by rewrite Htype.
    + intros [Hobjs Hread]%readTree_Ok. split; [done|].
      destruct (wf_store_lookup _ _ _ Hwf Hread) as [Hc Hu].
      split; [done|]. split; [done|]. intros part' rest.
      change (read (objects w) existingTree (part :: part' :: rest))
        with (match find (has_path part) existingTree with
              | Some entry =>
                  match subtree (objects w) entry with
                  | Some l' => read (objects w) l' (part' :: rest)
                  | None => None
                  end
              | None => None
              end).
      rewrite Hfind. unfold subtree. by rewrite Htype, Hread.
    + intros [= <- <-]. split; [done|]. split; [apply Hnil|].
      split; [apply Hnil|]. intros part' rest. simpl.
      rewrite Hfind. unfold subtree. by rewrite Htype.
  - intros [= <- <-]. split; [done|]. split; [apply Hnil|].
    split; [apply Hnil|]. intros part' rest. simpl. by rewrite Hfind.
Qed.

(** A successful [updateTreeRecursively] keeps the store and the listing
    well formed, and what the new listing reads at any path [q] is what the
    old one read there, overridden by the change according to where [q]
    lies with respect to the change's path. *)
Lemma updateTreeRecursively_reads remainingParts :
  ∀ existingTree part fileData w newTree w',
    wf_store (objects w) →
    closed_listing (length (objects w)) existingTree →
    unique_names existingTree →
    updateTreeRecursively existingTree part remainingParts fileData w
    = (Ok newTree, w') →
    objects w `prefix_of` objects w'
    ∧ wf_store (objects w')
    ∧ closed_listing (length (objects w')) newTree
    ∧ unique_names newTree
    ∧ ∀ q, read (objects w') newTree q
           = written fileData (compare_paths (part :: remainingParts) q) q
               (read (objects w) existingTree q).
Proof.
  induction remainingParts as [|part' rest IH];
    intros existingTree part fileData w newTree w' Hwf Hclosed Huniq Hrun;
    simpl in Hrun.
  - (* the file itself *)
    apply bind_Ok in Hrun as (blobOid & w1 & Hblob & Hrun).
    destruct (obj_content fileData) as [| |content] eqn:Hcontent.
    + done.
    + injection Hblob as <- <-.
      assert (Hreads : ∀ l,
        (∀ name, name ≠ part →
           find (has_path name) l = find (has_path name) existingTree) →
        find (has_path part) l = None →
        ∀ q, read (objects w) l q
             = written fileData (compare_paths [part] q) q
                 (read (objects w) existingTree q)).
      { intros l Hother Hgone [|q0 qrest]; [done|].
        rewrite compare_paths_cons.
        destruct (String.eqb_spec part q0) as [<-|Hne].
        - rewrite read_not_found by done.
          destruct qrest; simpl; by rewrite ?Hcontent.
        - apply read_same_find. apply Hother. congruence. }
      destruct (findIndex (has_path part) existingTree) as [i|] eqn:Hi;
        injection Hrun as <- <-.
      * split; [done|]. split; [done|].
        split; [by apply closed_listing_delete|].
        split; [by apply unique_names_delete|].
        apply Hreads.
        -- intros name Hne. by eapply find_delete_other.
        -- by apply find_delete_gone.
      * split; [done|]. split; [done|]. split; [done|]. split; [done|].
        apply Hreads; [done|]. by rewrite find_findIndex, Hi.
    + apply bind_Ok in Hblob as (oid & w2 & Hwrite & [= <- <-]).
      injection Hrun as <- <-.
      apply writeBlob_Ok in Hwrite as (Hobj & Hpre & Hlt & Hwf').
      split; [done|]. split; [auto|].
      split.
      { apply closed_listing_upsert; [|done].
        eapply closed_listing_mono; [|done]. by apply prefix_length_le. }
      split; [by apply unique_names_upsert|].
      intros [|q0 qrest]; [done|].
      rewrite compare_paths_cons.
      destruct (String.eqb_spec part q0) as [<-|Hne].
      * erewrite (read_found _ (upsert _ _ _));
          [|by apply find_upsert_hit].
        destruct qrest; simpl; [|done].
        unfold payload. simpl. by rewrite Hobj, Hcontent.
      * cbn [written].
        rewrite <- (read_mono (objects w) (objects w2) (q0 :: qrest) Hwf Hpre
                      existingTree Hclosed).
        apply read_same_find. apply find_upsert_miss; [done|congruence].
  - (* a directory on the way *)
    apply bind_Ok in Hrun as (subTree & w1 & Hsub & Hrun).
    apply bind_Ok in Hrun as (updated & w2 & Hupd & Hrun).
    apply bind_Ok in Hrun as (newOid & w3 & Hwrite & [= <- <-]).
    apply subTree_start in Hsub as (Hobjs1 & Hc1 & Hu1 & Hold); [|done].
    rewrite <- Hobjs1 in Hc1.
    apply IH in Hupd as (Hpre2 & Hwf2 & Hc2 & Hu2 & Hreads2);
      [|by rewrite Hobjs1|done|done].
    apply writeTree_Ok in Hwrite as (Hobj & Hpre3 & Hlt & Hwf3).
    rewrite Hobjs1 in Hpre2.
    assert (Hpre : objects w `prefix_of` objects w3) by (by etrans).
    split; [done|]. split; [auto|].
    split.
    { apply closed_listing_upsert; [|done].
      eapply closed_listing_mono; [|done]. by apply prefix_length_le. }
    split; [by apply unique_names_upsert|].
    intros [|q0 qrest]; [done|].
    rewrite compare_paths_cons.
    destruct (String.eqb_spec part q0) as [<-|Hne].
    + erewrite (read_found _ (upsert _ _ _));
        [|by apply find_upsert_hit].
      destruct qrest as [|q1 qrest]; [reflexivity|].
      unfold subtree. simpl entry_type. simpl entry_oid. rewrite Hobj.
      rewrite (read_mono (objects w2) _ _ Hwf2 Hpre3 _ Hc2).
      rewrite Hreads2, (written_tail _ _ part (q1 :: qrest)) by done.
      by rewrite Hold, Hobjs1.
    + cbn [written].
      rewrite <- (read_mono (objects w) (objects w3) (q0 :: qrest) Hwf Hpre
                    existingTree Hclosed).
      apply read_same_find. apply find_upsert_miss; [done|congruence].
Qed.

(** The same for a whole batch, applied one change after the other. *)
Lemma foldM_applyChange_reads tree :
  ∀ currentTree w newTree w',
    wf_store (objects w) →
    closed_listing (length (objects w)) currentTree →
    unique_names currentTree →
    foldM applyChange tree currentTree w = (Ok newTree, w') →
    objects w `prefix_of` objects w'
    ∧ wf_store (objects w')
    ∧ closed_listing (length (objects w')) newTree
    ∧ unique_names newTree
    ∧ ∀ q, read (objects w') newTree q
           = fold_left (after_change q) tree (read (objects w) currentTree q).
Proof.
  induction tree as [|fileData tree IH];
    intros currentTree w newTree w' Hwf Hclosed Huniq Hrun; simpl in Hrun.
  - by injection Hrun as <- <-.
  - apply bind_Ok in Hrun as (nextTree & w1 & Hstep & Hrun).
    unfold applyChange in Hstep.
    assert (Hafter : ∀ q old, after_change q old fileData
      = written fileData
          (compare_paths (let '(part, rest) := split_path (obj_path fileData)
                          in part :: rest) q) q old) by done.
    destruct (split_path (obj_path fileData)) as [part rest].
    apply updateTreeRecursively_reads in Hstep
      as (Hpre1 & Hwf1 & Hc1 & Hu1 & Hreads1); [|done..].
    apply IH in Hrun as (Hpre2 & Hwf2 & Hc2 & Hu2 & Hreads2); [|done..].
    split; [by etrans|]. split; [done|]. split; [done|]. split; [done|].
    intros q. simpl. by rewrite Hreads2, Hreads1, Hafter.
Qed.

(** [createTree] reads the tree of the commit [refHead], applies the batch,
    and returns a name under which the result is stored. *)
Lemma createTree_reads refHead tree w treeSha w' :
  wf_store (objects w) →
  createTree refHead tree w = (Ok treeSha, w') →
  ∃ c,
    objects w !! refHead = Some (Commit c)
    ∧ objects w `prefix_of` objects w'
    ∧ wf_store (objects w')
    ∧ ∀ q, readAt (objects w') treeSha q
           = fold_left (after_change q) tree
               (readAt (objects w) (commit_tree c) q).
Proof.
  intros Hwf Hrun. unfold createTree in Hrun.
  apply (proj1 (try_catch_throw_Ok _ (CommitError (AddingToTree refHead))
                  _ _ _)) in Hrun.
  apply bind_Ok in Hrun as (oldTreeSha & w1 & Hget & Hrun).
  apply bind_Ok in Hrun as (currentTree & w2 & Hread & Hrun).
  apply bind_Ok in Hrun as (newTree & w3 & Hfold & Hrun).
  apply getCommit_Ok in Hget as (Hobjs1 & c & Hc & <-).
  apply readTree_Ok in Hread as (Hobjs2 & Htree).
  rewrite Hobjs1 in Htree. rewrite Hobjs1 in Hobjs2.
  destruct (wf_store_lookup _ _ _ Hwf Htree) as [Hclosed Huniq].
  apply foldM_applyChange_reads in Hfold
    as (Hpre3 & Hwf3 & Hc3 & Hu3 & Hreads); rewrite ?Hobjs2; [|done..].
  rewrite Hobjs2 in Hpre3, Hreads.
  apply writeTree_Ok in Hrun as (Hobj & Hpre4 & _ & Hwf4).
  exists c. split; [done|]. split; [by etrans|]. split; [auto|].
  intros q. unfold readAt. rewrite Hobj, Htree.
  rewrite (read_mono (objects w3)) by done. apply Hreads.
Qed.

(* ===================================================================== *)
(** ** Paths a batch leaves alone *)
(* ===================================================================== *)

Lemma readAt_nil os oid : readAt os oid [] = None.
Proof. unfold readAt. by destruct (os !! oid) as [[]|]. Qed.

Lemma fold_after_change_untouched tree q old :
  untouched tree q → fold_left (after_change q) tree old = old.
Proof.
  induction 1 as [|fileData tree Hq _ IH]; [done|].
  simpl. unfold after_change at 2. rewrite Hq. exact IH.
Qed.

Lemma fold_after_change_directory tree q0 q :
  not_replaced tree (q0 :: q) →
  fold_left (after_change (q0 :: q)) tree (Some (M040000, PDir))
  = Some (M040000, PDir).
Proof.
  induction 1 as [|fileData tree Hq _ IH]; [done|].
  simpl. unfold after_change at 2. by destruct Hq as [-> | ->].
Qed.

(** C1. When [createTree] builds a tree from the tree [T] of the commit
    [refHead] and a batch of changes, every object stored before is still
    stored under its name, and at every path that no change of the batch is
    at, above or below, at any depth, the new tree reads what [T] read:
    the same mode, the same kind of entry and the same content, or nothing
    where [T] had nothing.  A directory of [T] that changes go into, none
    being at it or above it, is still a directory of the same mode. *)
Theorem createTree_frame (refHead : Oid) (tree : list TreeObject)
    (w w' : World) (treeSha : Oid) :
  wf_store (objects w) →
  createTree refHead tree w = (Ok treeSha, w') →
  ∃ c : CommitObject,
    objects w !! refHead = Some (Commit c)
    ∧ objects w `prefix_of` objects w'
    ∧ (∀ q : list string,
         untouched tree q →
         readAt (objects w') treeSha q
         = readAt (objects w) (commit_tree c) q)
    ∧ (∀ q : list string,
         not_replaced tree q →
         readAt (objects w) (commit_tree c) q = Some (M040000, PDir) →
         readAt (objects w') treeSha q = Some (M040000, PDir)).
Proof.
  intros Hwf Hrun.
  destruct (createTree_reads _ _ _ _ _ Hwf Hrun)
    as (c & Hc & Hpre & _ & Hreads).
  exists c. split; [done|]. split; [done|]. split.
  - intros q Hq. rewrite Hreads. by apply fold_after_change_untouched.
  - intros [|q0 q] Hq Hdir; [by rewrite readAt_nil in Hdir|].
    rewrite Hreads, Hdir. by apply fold_after_change_directory.
Qed.

Lemma sample_repo_wf fs : wf_store (objects (sample_repo fs)).
Proof. by_compute. Qed.

Lemma createTree_frame_witness :
  let tree := generateTreeObjects sample_changes in
  let run := createTree 4 tree (sample_repo []) in
  run.1 = Ok 8
  ∧ ∃ c : CommitObject,
      objects (sample_repo []) !! 4 = Some (Commit c)
      ∧ objects (sample_repo []) `prefix_of` objects run.2
      ∧ (∀ q : list string,
           untouched tree q →
           readAt (objects run.2) 8 q
           = readAt (objects (sample_repo [])) (commit_tree c) q)
      ∧ (∀ q : list string,
           not_replaced tree q →
           readAt (objects (sample_repo [])) (commit_tree c) q
           = Some (M040000, PDir) →
           readAt (objects run.2) 8 q = Some (M040000, PDir)).
Proof.
  intros tree run. split; [reflexivity|].
  apply (createTree_frame 4 tree (sample_repo []) run.2 8).
  - by_compute.
  - vm_compute. reflexivity.
Defined.

(* ===================================================================== *)
(** ** Two changes at one path *)
(* ===================================================================== *)

Lemma written_not_Apart fileData rel q old old' :
  rel ≠ Apart → written fileData rel q old = written fileData rel q old'.
Proof. by destruct rel. Qed.

Lemma pathParts_same_path c1 c2 :
  obj_path c1 = obj_path c2 → pathParts c1 = pathParts c2.
Proof. unfold pathParts. by intros ->. Qed.

(** An earlier change at the path of a later one leaves no mark on what is
    read after the later one. *)
Lemma fold_after_change_absorb q c1 mid c2 post old :
  pathParts c1 = pathParts c2 →
  fold_left (after_change q) (c1 :: mid ++ c2 :: post) old
  = fold_left (after_change q) (mid ++ c2 :: post) old.
Proof.
  intros Hpath. simpl. rewrite !fold_left_app. simpl. f_equal.
  unfold after_change at 1 3.
  destruct (decide (compare_paths (pathParts c2) q = Apart)) as [Hrel|Hrel].
  - unfold after_change at 2. by rewrite Hpath, Hrel.
  - by apply written_not_Apart.
Qed.

(** C9. A batch with two changes at the same path, applied by [createTree]
    one change after the other, yields a tree that reads at every path
    exactly what the tree of the batch without the earlier of the two
    reads: the later change decides. *)
Theorem createTree_later_wins (refHead : Oid)
    (pre mid post : list TreeObject) (c1 c2 : TreeObject)
    (w w1 w2 : World) (sha1 sha2 : Oid) :
  wf_store (objects w) →
  obj_path c1 = obj_path c2 →
  createTree refHead (pre ++ c1 :: mid ++ c2 :: post) w = (Ok sha1, w1) →
  createTree refHead (pre ++ mid ++ c2 :: post) w = (Ok sha2, w2) →
  ∀ q : list string,
    readAt (objects w1) sha1 q = readAt (objects w2) sha2 q.
Proof.
  intros Hwf Hpath Hrun1 Hrun2 q.
  destruct (createTree_reads _ _ _ _ _ Hwf Hrun1) as (c & Hc & _ & _ & Hr1).
  destruct (createTree_reads _ _ _ _ _ Hwf Hrun2) as (c' & Hc' & _ & _ & Hr2).
  assert (c' = c) as -> by congruence.
  rewrite Hr1, Hr2, (fold_left_app _ pre), (fold_left_app _ pre).
  apply fold_after_change_absorb. by apply pathParts_same_path.
Qed.

(** [README] is changed twice, with a change to [docs/a.md] in between. *)
Lemma createTree_later_wins_witness :
  let change path content :=
    treeObjectOf path (FileData_default (Some content)) in
  let c1 := change "README" "first" in
  let mid := [change "docs/a.md" "hello"] in
  let c2 := change "README" "second" in
  let run1 := createTree 4 ([] ++ c1 :: mid ++ c2 :: []) (sample_repo []) in
  let run2 := createTree 4 ([] ++ mid ++ c2 :: []) (sample_repo []) in
  run1.1 = Ok 9 ∧ run2.1 = Ok 8
  ∧ readAt (objects run1.2) 9 ["README"] = readAt (objects run2.2) 8 ["README"]
  ∧ readAt (objects run1.2) 9 ["README"] = Some (M100644, PFile (Some "second"))
  ∧ readAt (objects run1.2) 9 ["docs"; "a.md"]
    = readAt (objects run2.2) 8 ["docs"; "a.md"]
  ∧ readAt (objects run1.2) 9 ["src"; "lib.ts"]
    = readAt (objects run2.2) 8 ["src"; "lib.ts"].
Proof.
  intros change c1 mid c2 run1 run2.
  assert (Hsame : ∀ q : list string,
            readAt (objects run1.2) 9 q = readAt (objects run2.2) 8 q).
  { apply (createTree_later_wins 4 [] mid [] c1 c2 (sample_repo [])
             run1.2 run2.2 9 8).
    - by_compute.
    - reflexivity.
    - vm_compute. reflexivity.
    - vm_compute. reflexivity. }
  split; [reflexivity|]. split; [reflexivity|].
  split; [apply Hsame|]. split; [reflexivity|].
  split; apply Hsame.
Defined.

(* ===================================================================== *)
(** ** Deleting what is not there *)
(* ===================================================================== *)

Lemma compare_paths_Same p : ∀ q, compare_paths p q = Same → q = p.
Proof.
  induction p as [|a p IH]; intros [|b q]; simpl; try done.
  destruct (String.eqb_spec a b) as [->|]; [|done].
  by intros ->%IH.
Qed.

(** Nothing is read below a path at which nothing is read. *)
Lemma read_below os p :
  ∀ l q, read os l p = None → p ≠ [] → compare_paths p q = Below →
         read os l q = None.
Proof.
  induction p as [|a p IH]; intros l [|b q] Hread Hp Hrel; try done.
  rewrite compare_paths_cons in Hrel.
  destruct (String.eqb_spec a b) as [<-|]; [|done].
  destruct (find (has_path a) l) as [entry|] eqn:Hfind;
    [|by apply read_not_found].
  rewrite (read_found _ _ _ _ _ Hfind) in Hread.
  rewrite (read_found _ _ _ _ _ Hfind).
  destruct p as [|a' p]; [done|].
  destruct q as [|b' q]; [done|].
  destruct (subtree os entry) as [l'|]; [|done].
  by apply (IH l' (b' :: q)).
Qed.

Lemma readAt_below os oid p q :
  readAt os oid p = None → p ≠ [] → compare_paths p q = Below →
  readAt os oid q = None.
Proof.
  unfold readAt. destruct (os !! oid) as [[]|]; try done. apply read_below.
Qed.

Lemma pathParts_not_nil fileData : pathParts fileData ≠ [].
Proof. unfold pathParts. by destruct (split_path _). Qed.

(** C4, as the code has it. A deletion (content [null]) of a path that does
    not exist in the tree [T] of [refHead], every directory above which
    exists in [T] as a directory of mode 040000, yields, when [createTree]
    returns, a tree that reads at every path what [T] reads. *)
Theorem createTree_delete_missing (refHead : Oid) (fileData : TreeObject)
    (w w' : World) (treeSha : Oid) (c : CommitObject) :
  wf_store (objects w) →
  obj_content fileData = Null →
  objects w !! refHead = Some (Commit c) →
  readAt (objects w) (commit_tree c) (pathParts fileData) = None →
  (∀ q, q ≠ [] → compare_paths (pathParts fileData) q = Above →
        readAt (objects w) (commit_tree c) q = Some (M040000, PDir)) →
  createTree refHead [fileData] w = (Ok treeSha, w') →
  ∀ q : list string,
    readAt (objects w') treeSha q = readAt (objects w) (commit_tree c) q.
Proof.
  intros Hwf Hnull Hc Hmissing Hdirs Hrun q.
  destruct (createTree_reads _ _ _ _ _ Hwf Hrun) as (c' & Hc' & _ & _ & Hr).
  assert (c' = c) as -> by congruence.
  rewrite Hr. simpl. unfold after_change.
  destruct (compare_paths (pathParts fileData) q) eqn:Hrel; simpl.
  - apply compare_paths_Same in Hrel as ->. by rewrite Hnull, Hmissing.
  - destruct q as [|q0 q]; [by rewrite readAt_nil|].
    symmetry. by apply Hdirs.
  - symmetry. eapply readAt_below; [done| |done]. apply pathParts_not_nil.
  - done.
Qed.

(** Deleting [src/gone.ts], which is not in [src]. *)
Lemma createTree_delete_missing_witness :
  let run := createTree 4 [deletion "src/gone.ts"] (sample_repo []) in
  let before := readAt (objects (sample_repo [])) 3 in
  run.1 = Ok 3
  ∧ readAt (objects run.2) 3 ["src"; "gone.ts"] = before ["src"; "gone.ts"]
  ∧ readAt (objects run.2) 3 ["src"] = before ["src"]
  ∧ readAt (objects run.2) 3 ["src"; "lib.ts"] = before ["src"; "lib.ts"]
  ∧ readAt (objects run.2) 3 ["README"] = before ["README"].
Proof.
  intros run before.
  assert (Hsame : ∀ q : list string, readAt (objects run.2) 3 q = before q).
  { apply (createTree_delete_missing 4 (deletion "src/gone.ts")
             (sample_repo []) run.2 3 (mkCommit "init" 3 [] None None None)).
    - by_compute.
    - reflexivity.
    - reflexivity.
    - reflexivity.
    - intros q Hq Hrel. destruct q as [|q0 q]; [done|].
      change (pathParts _) with ["src"; "gone.ts"] in Hrel.
      rewrite compare_paths_cons in Hrel.
      destruct (String.eqb_spec "src" q0) as [<-|]; [|done].
      destruct q as [|q1 q]; [reflexivity|].
      rewrite compare_paths_cons in Hrel.
      destruct (String.eqb "gone.ts" q1); [|done]. by destruct q.
    - vm_compute. reflexivity. }
  split; [reflexivity|]. repeat split; apply Hsame.
Defined.

(** C4 as stated fails: on the empty tree, deleting [a/b] returns a tree
    with a new directory [a]. *)
Lemma delete_missing_creates_directory :
  ∃ w' : World,
    createTree 1 [deletion "a/b"] (fresh_repo []) = (Ok 2, w')
    ∧ readAt (objects (fresh_repo [])) 0 ["a"; "b"] = None
    ∧ readAt (objects (fresh_repo [])) 0 ["a"] = None
    ∧ readAt (objects w') 2 ["a"] = Some (M040000, PDir).
Proof. eexists. vm_compute. done. Qed.

(* ===================================================================== *)
(** ** A file where a directory is needed *)
(* ===================================================================== *)

Lemma no_fault_head w : true ∉ faults w → faults w !! 0 ≠ Some true.
Proof. intros Hnf Hk. apply Hnf. by eapply list_elem_of_lookup_2. Qed.

Lemma no_fault_called c w : true ∉ faults w → true ∉ faults (called c w).
Proof.
  simpl. intros Hnf Hin. apply Hnf.
  destruct (faults w); [done|]. by apply list_elem_of_further.
Qed.

Lemma store_call_succeeds c o w :
  true ∉ faults w →
  ∃ oid w', call c (store_object o) w = (Ok oid, w') ∧ true ∉ faults w'.
Proof.
  intros Hnf. rewrite call_no_fault by by apply no_fault_head.
  destruct (store_object_spec o (called c w))
    as (i & w' & Hrun & _ & _ & _ & _ & Hfaults).
  exists i, w'. split; [done|]. rewrite Hfaults. by apply no_fault_called.
Qed.

(** From an empty listing the builder reads nothing: if no call fails on
    the way, it returns. *)
Lemma updateTreeRecursively_from_empty remainingParts :
  ∀ part fileData w,
    obj_content fileData ≠ Undefined → true ∉ faults w →
    ∃ newTree w',
      updateTreeRecursively [] part remainingParts fileData w
      = (Ok newTree, w')
      ∧ true ∉ faults w'.
Proof.
  induction remainingParts as [|part' rest IH]; intros part fileData w Hc Hnf;
    simpl.
  - destruct (obj_content fileData) as [| |content]; [done| |].
    + by eexists _, _.
    + destruct (store_call_succeeds (CallWriteBlob content) (Blob content) w Hnf)
        as (oid & w' & Hrun & Hnf').
      unfold bind, writeBlob. rewrite Hrun. by eexists _, _.
  - unfold bind at 1. unfold ret at 1.
    destruct (IH part' fileData w Hc Hnf) as (updated & w1 & Hrun & Hnf1).
    unfold bind at 1. rewrite Hrun.
    destruct (store_call_succeeds (CallWriteTree updated) (Tree updated) w1 Hnf1)
      as (oid & w' & Hwrite & Hnf').
    unfold bind, writeTree. rewrite Hwrite. by eexists _, _.
Qed.

(** C2, as the code has it. When the first part of a change's path names
    an entry of the current listing that is not a directory, and more parts
    follow, [updateTreeRecursively] raises no conflict: unless a call fails
    on the way it returns a listing in which that entry is a directory of
    mode 040000 holding exactly what the rest of the path creates from an
    empty listing, every other entry reading as before. *)
Theorem blob_on_the_way_is_replaced (existingTree : list TreeEntry)
    (part part' : string) (rest : list string) (fileData : TreeObject)
    (entry : TreeEntry) (w : World) :
  wf_store (objects w) →
  closed_listing (length (objects w)) existingTree →
  unique_names existingTree →
  find (has_path part) existingTree = Some entry →
  entry_type entry ≠ TTree →
  obj_content fileData ≠ Undefined →
  true ∉ faults w →
  ∃ (newTree : list TreeEntry) (w' : World),
    updateTreeRecursively existingTree part (part' :: rest) fileData w
    = (Ok newTree, w')
    ∧ read (objects w') newTree [part] = Some (M040000, PDir)
    ∧ (∀ q, read (objects w') newTree (part :: q)
            = written fileData (compare_paths (part' :: rest) q) (part :: q)
                None)
    ∧ (∀ name q, name ≠ part →
         read (objects w') newTree (name :: q)
         = read (objects w) existingTree (name :: q)).
Proof.
  intros Hwf Hclosed Huniq Hfind Htype Hcontent Hnf.
  assert (Hrun : ∃ newTree w',
    updateTreeRecursively existingTree part (part' :: rest) fileData w
    = (Ok newTree, w')).
  { simpl. rewrite <- find_findIndex, Hfind.
    destruct (updateTreeRecursively_from_empty rest part' fileData w Hcontent Hnf)
      as (updated & w1 & Hupd & Hnf1).
    destruct (store_call_succeeds (CallWriteTree updated) (Tree updated) w1 Hnf1)
      as (oid & w' & Hwrite & _).
    exists (upsert existingTree (findIndex (has_path part) existingTree)
              (mkTreeEntry M040000 part oid TTree)), w'.
    destruct (entry_type entry); [|done|];
      unfold bind, ret, writeTree; by rewrite Hupd, Hwrite. }
  destruct Hrun as (newTree & w' & Hrun). exists newTree, w'.
  split; [done|].
  destruct (updateTreeRecursively_reads _ _ _ _ _ _ _ Hwf Hclosed Huniq Hrun)
    as (_ & _ & _ & _ & Hreads).
  assert (Hunder : ∀ q, read (objects w') newTree (part :: q)
            = written fileData (compare_paths (part' :: rest) q) (part :: q)
                None).
  { intros q. rewrite Hreads, compare_paths_cons, String.eqb_refl.
    destruct (compare_paths (part' :: rest) q) eqn:Hrel; try done.
    cbn [written]. rewrite (read_found _ _ _ _ _ Hfind).
    destruct q as [|q0 q]; [done|].
    unfold subtree. by destruct (entry_type entry). }
  split; [apply (Hunder [])|]. split; [done|].
  intros name q Hne. rewrite Hreads, compare_paths_cons.
  destruct (String.eqb_spec part name); [congruence|done].
Qed.

(** A listing with the file [x], and the change [x/y]. *)
Lemma blob_on_the_way_is_replaced_witness :
  let existingTree := [mkTreeEntry M100644 "x" 0 TBlob] in
  let fileData := treeObjectOf "x/y" (FileData_default (Some "d")) in
  ∃ (newTree : list TreeEntry) (w' : World),
    updateTreeRecursively existingTree "x" ["y"] fileData (sample_repo [])
    = (Ok newTree, w')
    ∧ read (objects w') newTree ["x"] = Some (M040000, PDir)
    ∧ read (objects w') newTree ["x"; "y"]
      = Some (M100644, PFile (Some "d")).
Proof.
  intros existingTree fileData.
  destruct (blob_on_the_way_is_replaced existingTree "x" "y" [] fileData
              (mkTreeEntry M100644 "x" 0 TBlob) (sample_repo []))
    as (newTree & w' & Hrun & Hdir & Hunder & _).
  - by_compute.
  - by_compute.
  - by_compute.
  - reflexivity.
  - discriminate.
  - discriminate.
  - by intros Hin%elem_of_nil.
  - exists newTree, w'. split; [exact Hrun|]. split; [exact Hdir|].
    exact (Hunder ["y"]).
Defined.

(** C2 as stated fails: the change set [{x: "c", "x/y": "d"}] raises
    nothing; [createTree] returns a tree in which [x] is a directory holding
    [y], and the file [x] is gone. *)
Lemma file_and_directory_no_conflict :
  ∃ (treeSha : Oid) (w' : World),
    createTree 1
      (generateTreeObjects
         [("x", FileData_default (Some "c"));
          ("x/y", FileData_default (Some "d"))])
      (fresh_repo []) = (Ok treeSha, w')
    ∧ readAt (objects w') treeSha ["x"] = Some (M040000, PDir)
    ∧ readAt (objects w') treeSha ["x"; "y"]
      = Some (M100644, PFile (Some "d")).
Proof. eexists _, _. vm_compute. done. Qed.

(* ===================================================================== *)
(** ** Deletions as [generateTreeObjects] marks them *)
(* ===================================================================== *)

(** The calls a change without content has [updateTreeRecursively] make:
    tree reads and tree writes, no blob write. *)
Lemma keeps_update_without_content remainingParts :
  ∀ existingTree part fileData,
    obj_content fileData = Undefined →
    keeps (fun c => is_tree_call c ∧ ∀ blob, c ≠ CallWriteBlob blob)
      (updateTreeRecursively existingTree part remainingParts fileData).
Proof.
  induction remainingParts as [|part' rest IH];
    intros existingTree part fileData Hcontent; simpl.
  - rewrite Hcontent. apply keeps_bind; [apply keeps_throw|].
    intros [oid|]; [apply keeps_ret|].
    destruct (findIndex _ _); apply keeps_ret.
  - apply keeps_bind.
    + destruct (_ ≫= _) as [entry|]; [|apply keeps_ret].
      destruct (entry_type entry); try apply keeps_ret.
      apply keeps_call; [done|]. intros w r w'.
      destruct (objects w !! _) as [[]|]; by intros [= <- <-].
    + intros subTree. apply keeps_bind; [by apply IH|].
      intros updated. apply keeps_bind; [|intros; apply keeps_ret].
      apply keeps_call; [done|]. apply store_object_inert.
Qed.

(** C3 fails on the code. The tree object [generateTreeObjects] makes for a
    [FileData] without content has [sha: null] and no [content] property;
    [updateTreeRecursively] tests [content === null], which a missing
    property does not pass, and goes on to [Buffer.from(undefined)].  So a
    deletion is never applied: [applyChange] returns no listing for it, and
    at a one-part path it throws the [TypeError] before any call.  No blob
    is written for it, which is the part of the claim that holds. *)
Theorem deletion_change_throws (currentTree : list TreeEntry) (path : string)
    (mode : FileMode) (w : World) :
  let fileData := treeObjectOf path (mkFileData None mode) in
  (∀ newTree w', applyChange currentTree fileData w ≠ (Ok newTree, w'))
  ∧ (∀ part, split_path path = (part, []) →
       applyChange currentTree fileData w = (Err TypeError, w))
  ∧ (∀ r w', applyChange currentTree fileData w = (r, w') →
       ∃ calls, trace w' = trace w ++ calls
                ∧ Forall (fun c => ∀ blob, c ≠ CallWriteBlob blob) calls).
Proof.
  intros fileData. subst fileData. unfold applyChange, treeObjectOf.
  cbn [fd_content fd_mode obj_path].
  destruct (split_path path) as [part rest]. split; [|split].
  - revert currentTree part w.
    induction rest as [|part' rest IH]; intros currentTree part w newTree w';
      simpl.
    + by unfold bind, throw.
    + intros Hrun. apply bind_Ok in Hrun as (subTree & w1 & _ & Hrun).
      apply bind_Ok in Hrun as (updated & w2 & Hrun & _).
      by apply IH in Hrun.
  - by intros part0 [= -> ->].
  - intros r w' Hrun.
    apply keeps_update_without_content in Hrun as (_ & _ & calls & Ht & Hcalls);
      [|done].
    exists calls. split; [done|].
    eapply Forall_impl; [exact Hcalls|]. by intros c [_ Hc].
Qed.

(** Deleting [README] from the sample repository: [createTree] throws and
    no object is written. *)
Lemma deletion_change_throws_example :
  ∃ w' : World,
    createTree 4 (generateTreeObjects [("README", FileData_default None)])
      (sample_repo [])
    = (Err (CommitError (AddingToTree 4) TypeError), w')
    ∧ objects w' = objects (sample_repo [])
    ∧ readAt (objects w') 3 ["README"] = Some (M100644, PFile (Some "old")).
Proof. eexists. vm_compute. done. Qed.

(* ===================================================================== *)
(** ** An empty batch *)
(* ===================================================================== *)

(** Writing an object that is already stored changes nothing. *)
Lemma store_object_present o w k :
  objects w !! k = Some o →
  ∃ i, store_object o w = (Ok i, w) ∧ objects w !! i = Some o
       ∧ (NoDup (objects w) → i = k).
Proof.
  intros Hk. unfold store_object.
  destruct (findIndex _ _) as [i|] eqn:Hfind.
  - exists i. apply findIndex_Some in Hfind as [(x & Hx & Hp) _].
    apply bool_decide_eq_true in Hp as ->. split; [done|]. split; [done|].
    intros Hnodup. by eapply NoDup_lookup.
  - apply findIndex_None in Hfind. rewrite Forall_forall in Hfind.
    assert (Hin : o ∈ objects w) by (by eapply list_elem_of_lookup_2).
    apply Hfind in Hin. by rewrite bool_decide_eq_true_2 in Hin.
Qed.

(** With no change to apply, [createTree] makes three calls (get the
    commit, read its tree, write that listing back), stores no object, and
    returns a name of the listing of the base tree; in a store without
    duplicates that is the base tree's own name. *)
Theorem createTree_empty_batch (refHead : Oid) (w w' : World) (treeSha : Oid) :
  createTree refHead [] w = (Ok treeSha, w') →
  ∃ (c : CommitObject) (currentTree : list TreeEntry),
    objects w !! refHead = Some (Commit c)
    ∧ objects w !! commit_tree c = Some (Tree currentTree)
    ∧ objects w !! treeSha = Some (Tree currentTree)
    ∧ objects w' = objects w
    ∧ trace w' = trace w ++ [CallGetCommit refHead;
                             CallReadTree (commit_tree c);
                             CallWriteTree currentTree]
    ∧ (NoDup (objects w) → treeSha = commit_tree c).
Proof.
  intros Hrun. unfold createTree in Hrun.
  apply (proj1 (try_catch_throw_Ok _ (CommitError (AddingToTree refHead))
                  _ _ _)) in Hrun.
  apply bind_Ok in Hrun as (oldTreeSha & w1 & Hget & Hrun).
  apply bind_Ok in Hrun as (currentTree & w2 & Hread & Hrun).
  apply bind_Ok in Hrun as (newTree & w3 & [= <- <-] & Hrun).
  unfold getCommit in Hget. apply call_Ok in Hget as [_ Hget].
  simpl in Hget.
  destruct (objects w !! refHead) as [[| |c]|] eqn:Hc; try done.
  injection Hget as <- <-.
  unfold readTree in Hread. apply call_Ok in Hread as [_ Hread].
  simpl in Hread.
  destruct (objects w !! commit_tree c) as [[|T|]|] eqn:HT; try done.
  injection Hread as <- <-.
  unfold writeTree in Hrun. apply call_Ok in Hrun as [_ Hrun].
  set (w3 := called _ _) in Hrun.
  destruct (store_object_present (Tree T) w3 (commit_tree c) HT)
    as (i & Hstore & Hi & Huniq).
  rewrite Hstore in Hrun. injection Hrun as <- <-.
  exists c, T. split; [done|]. split; [done|]. split; [done|].
  split; [done|]. split; [|done].
  simpl. by rewrite <- !app_assoc.
Qed.

Lemma createTree_empty_batch_witness :
  let run := createTree 4 [] (sample_repo []) in
  run.1 = Ok 3
  ∧ ∃ (c : CommitObject) (currentTree : list TreeEntry),
      objects (sample_repo []) !! 4 = Some (Commit c)
      ∧ objects (sample_repo []) !! commit_tree c = Some (Tree currentTree)
      ∧ objects (sample_repo []) !! 3 = Some (Tree currentTree)
      ∧ objects run.2 = objects (sample_repo [])
      ∧ trace run.2
        = trace (sample_repo []) ++ [CallGetCommit 4;
                                     CallReadTree (commit_tree c);
                                     CallWriteTree currentTree]
      ∧ (NoDup (objects (sample_repo [])) → 3 = commit_tree c).
Proof.
  intros run. split; [reflexivity|].
  apply (createTree_empty_batch 4 (sample_repo []) run.2 3).
  vm_compute. reflexivity.
Defined.

(* ===================================================================== *)
(** ** Reading back what a batch wrote *)
(* ===================================================================== *)




(* ===================================================================== *)
(** ** Changes at unrelated paths *)
(* ===================================================================== *)

Lemma compare_paths_Apart_sym p : ∀ q,
  compare_paths p q = Apart → compare_paths q p = Apart.
Proof.
  induction p as [|a p IH]; intros [|b q]; simpl; try done.
  rewrite (String.eqb_sym b a). destruct (String.eqb a b); [apply IH|done].
Qed.

(** A path related to two paths that are apart lies above both. *)
Lemma compare_paths_Apart_both p1 : ∀ p2 q,
  compare_paths p1 p2 = Apart →
  compare_paths p1 q ≠ Apart → compare_paths p2 q ≠ Apart →
  compare_paths p1 q = Above ∧ compare_paths p2 q = Above.
Proof.
  induction p1 as [|a p1 IH]; intros [|b p2] [|c q]; simpl; try done.
  destruct (String.eqb_spec a c) as [->|]; [|done].
  destruct (String.eqb_spec b c) as [->|]; [|done].
  rewrite String.eqb_refl. apply IH.
Qed.

Lemma after_change_commute q old c1 c2 :
  apart c1 c2 →
  after_change q (after_change q old c1) c2
  = after_change q (after_change q old c2) c1.
Proof.
  unfold apart, after_change. intros Hapart.
  destruct (decide (compare_paths (pathParts c1) q = Apart)) as [H1|H1].
  { rewrite H1. simpl. done. }
  destruct (decide (compare_paths (pathParts c2) q = Apart)) as [H2|H2].
  { rewrite H2. simpl. done. }
  destruct (compare_paths_Apart_both _ _ _ Hapart H1 H2) as [-> ->].
  done.
Qed.

Lemma apart_sym c1 c2 : apart c1 c2 → apart c2 c1.
Proof. apply compare_paths_Apart_sym. Qed.

Lemma pairwise_apart_Permutation tree1 tree2 :
  tree1 ≡ₚ tree2 → pairwise_apart tree1 → pairwise_apart tree2.
Proof.
  induction 1 as [|c t1 t2 Hperm IH|c1 c2 t|t1 t2 t3 _ IH1 _ IH2]; simpl.
  - done.
  - intros [Hc Ht]. split; [by rewrite <- Hperm | auto].
  - intros [Hc2 [Hc1 Ht]]. apply Forall_cons in Hc2 as [H21 Hc2].
    split; [|done]. constructor; [by apply apart_sym | done].
  - auto.
Qed.

(** The order of changes that are pairwise apart does not show in what is
    read after them. *)
Lemma fold_after_change_Permutation q tree1 tree2 :
  tree1 ≡ₚ tree2 → pairwise_apart tree1 →
  ∀ old, fold_left (after_change q) tree1 old
         = fold_left (after_change q) tree2 old.
Proof.
  induction 1 as [|c t1 t2 Hperm IH|c1 c2 t|t1 t2 t3 H12 IH1 _ IH2];
    intros Hapart old; simpl.
  - done.
  - apply IH, Hapart.
  - destruct Hapart as [Hc2 _]. apply Forall_cons in Hc2 as [H21 _].
    f_equal. by apply after_change_commute.
  - rewrite IH1 by done. apply IH2.
    by eapply pairwise_apart_Permutation.
Qed.

(** When no change of a batch is at, above or below another, the order in
    which [createTree] is given the changes does not matter: any two
    orders, when both runs return, give trees that read the same at every
    path. *)
Theorem createTree_order_irrelevant (refHead : Oid)
    (tree1 tree2 : list TreeObject) (w w1 w2 : World) (sha1 sha2 : Oid) :
  wf_store (objects w) →
  tree1 ≡ₚ tree2 →
  pairwise_apart tree1 →
  createTree refHead tree1 w = (Ok sha1, w1) →
  createTree refHead tree2 w = (Ok sha2, w2) →
  ∀ q : list string,
    readAt (objects w1) sha1 q = readAt (objects w2) sha2 q.
Proof.
  intros Hwf Hperm Hapart Hrun1 Hrun2 q.
  destruct (createTree_reads _ _ _ _ _ Hwf Hrun1) as (c & Hc & _ & _ & Hr1).
  destruct (createTree_reads _ _ _ _ _ Hwf Hrun2) as (c' & Hc' & _ & _ & Hr2).
  assert (c' = c) as -> by congruence.
  rewrite Hr1, Hr2. by apply fold_after_change_Permutation.
Qed.

Lemma createTree_order_irrelevant_witness :
  let change path content :=
    treeObjectOf path (FileData_default (Some content)) in
  let c1 := change "README" "new" in
  let c2 := change "docs/a.md" "hello" in
  let run1 := createTree 4 [c1; c2] (sample_repo []) in
  let run2 := createTree 4 [c2; c1] (sample_repo []) in
  run1.1 = Ok 8 ∧ run2.1 = Ok 8
  ∧ readAt (objects run1.2) 8 ["README"]
    = readAt (objects run2.2) 8 ["README"]
  ∧ readAt (objects run1.2) 8 ["docs"; "a.md"]
    = readAt (objects run2.2) 8 ["docs"; "a.md"]
  ∧ objects run1.2 ≠ objects run2.2.
Proof.
  intros change c1 c2 run1 run2.
  assert (Hsame : ∀ q : list string,
            readAt (objects run1.2) 8 q = readAt (objects run2.2) 8 q).
  { apply (createTree_order_irrelevant 4 [c1; c2] [c2; c1] (sample_repo [])
             run1.2 run2.2 8 8).
    - by_compute.
    - apply perm_swap.
    - split; [|split; [constructor|exact I]].
      constructor; [reflexivity|constructor].
    - vm_compute. reflexivity.
    - vm_compute. reflexivity. }
  split; [reflexivity|]. split; [reflexivity|].
  split; [apply Hsame|]. split; [apply Hsame|].
  vm_compute. discriminate.
Defined.

(* ===================================================================== *)
(** ** How [commitAndPush] ends *)
(* ===================================================================== *)

Lemma updateRef_Ok origin newSha force w w' :
  updateRef origin newSha force w = (Ok tt, w') →
  w' = set_refs (<[head_ref origin := newSha]> (refs w))
         (called (CallWriteRef (head_ref origin) newSha force) w).
Proof.
  unfold updateRef. intros Hrun.
  apply (proj1 (try_catch_throw_Ok _
                  (CommitError (UpdatingRef (branch origin) newSha)) _ _ _))
    in Hrun.
  unfold writeRef in Hrun. apply call_Ok in Hrun as [_ Hrun].
  destruct (force || _); [|done]. by injection Hrun as <-.
Qed.

Lemma updateRef_Err origin newSha force w e w' :
  updateRef origin newSha force w = (Err e, w') →
  (∃ cause, e = CommitError (UpdatingRef (branch origin) newSha) cause)
  ∧ w' = called (CallWriteRef (head_ref origin) newSha force) w.
Proof.
  unfold updateRef. intros Hrun.
  apply (proj1 (try_catch_throw_Err _
                  (CommitError (UpdatingRef (branch origin) newSha)) _ _ _))
    in Hrun as (cause & Hrun & ->).
  split; [eauto|]. unfold writeRef in Hrun.
  destruct (decide (faults w !! 0 = Some true)) as [Hfault|Hfault].
  - rewrite call_fault in Hrun by done. by injection Hrun as <- <-.
  - rewrite call_no_fault in Hrun by done.
    destruct (force || _); [done|]. by injection Hrun as <- <-.
Qed.








(* ===================================================================== *)
(** ** A group size of zero *)
(* ===================================================================== *)




(* ===================================================================== *)
(** ** References of other branches *)
(* ===================================================================== *)

Lemma createRef_inj name1 name2 :
  Branch.createRef name1 = Branch.createRef name2 → name1 = name2.
Proof.
  unfold Branch.createRef, Branch.REF_PREFIX. cbn. intros [= H]. exact H.
Qed.

(** [updateRef] makes one call, a write of the reference that [createRef]
    of [branch.ts] gives the branch; whatever its outcome, the reference of
    every other branch and the object store are as before. *)
Theorem updateRef_other_branches (origin : BranchDomain) (newSha : Oid)
    (force : bool) (w w' : World) (r : Result unit) :
  updateRef origin newSha force w = (r, w') →
  trace w'
  = trace w ++ [CallWriteRef (Branch.createRef (branch origin)) newSha force]
  ∧ objects w' = objects w
  ∧ ∀ name : string,
      name ≠ branch origin →
      refs w' !! Branch.createRef name = refs w !! Branch.createRef name.
Proof.
  intros Hrun. destruct r as [[]|e|].
  - apply updateRef_Ok in Hrun as ->. simpl. split; [done|]. split; [done|].
    intros name Hne. apply lookup_insert_ne.
    intros Heq. apply Hne. symmetry. by apply createRef_inj.
  - by apply updateRef_Err in Hrun as [_ ->].
  - unfold updateRef, try_catch, writeRef, call in Hrun.
    destruct (faults w) as [|[] fs]; simpl in Hrun; try done;
      by destruct (force || _).
Qed.

(** [main] is forced to commit 2; [dev] stays at commit 3. *)
Lemma updateRef_other_branches_witness :
  let w :=
    set_refs (<[Branch.createRef "dev" := 3]> (refs (forked_repo [])))
      (forked_repo []) in
  let run := updateRef main_branch 2 true w in
  run.1 = Ok tt
  ∧ refs run.2 !! Branch.createRef "main" = Some 2
  ∧ refs run.2 !! Branch.createRef "dev" = Some 3
  ∧ objects run.2 = objects w.
Proof.
  intros w run.
  destruct (updateRef_other_branches main_branch 2 true w run.2 run.1)
    as (_ & Hobjs & Hrefs); [apply surjective_pairing|].
  split; [reflexivity|]. split; [reflexivity|].
  split; [|exact Hobjs].
  transitivity (refs w !! Branch.createRef "dev"); [|reflexivity].
  apply Hrefs. discriminate.
Defined.

(* ===================================================================== *)
(** ** What [createCommit] stores *)
(* ===================================================================== *)

Lemma fetch_result w r w' :
  fetch w = (r, w') →
  w' = called CallFetch w ∧ (r = Ok tt ∨ ∃ e, r = Err e).
Proof.
  unfold fetch, call, ret, called.
  destruct (faults w) as [|[] fs]; intros [= <- <-]; eauto.
Qed.

Lemma commit_result c w r w' :
  commit c w = (r, w') →
  (∃ sha, r = Ok sha ∧ objects w' !! sha = Some (Commit c)
          ∧ trace w' = trace w ++ [CallCommit c])
  ∨ (∃ e, r = Err e ∧ objects w' = objects w).
Proof.
  unfold commit. intros Hrun.
  destruct (decide (faults w !! 0 = Some true)) as [Hfault|Hfault].
  - rewrite call_fault in Hrun by done. injection Hrun as <- <-. eauto.
  - rewrite call_no_fault in Hrun by done.
    destruct (store_object_spec (Commit c) (called (CallCommit c) w))
      as (i & w2 & Hstore & Hobj & _ & _ & Htrace & _).
    rewrite Hstore in Hrun. injection Hrun as <- <-. left. eauto.
Qed.

(** The signing step of [createCommit]. *)
Lemma sign_result options payload w r w' :
  match signer options with
  | Some sg => s <- generateSignature sg payload ;; ret (Some s)
  | None => ret None
  end w = (r, w') →
  objects w' = objects w
  ∧ ((∃ e, r = Err e)
     ∨ (r = Ok (signer options ≫= fun sg => sg payload)
        ∧ (∀ sg, signer options = Some sg → is_Some (sg payload))
        ∧ trace w' = trace w ++ match signer options with
                                | Some _ => [CallSign payload]
                                | None => []
                                end)).
Proof.
  destruct (signer options) as [sg|]; simpl.
  - unfold bind, generateSignature. intros Hrun.
    destruct (decide (faults w !! 0 = Some true)) as [Hfault|Hfault].
    + rewrite call_fault in Hrun by done. injection Hrun as <- <-. eauto.
    + rewrite call_no_fault in Hrun by done.
      destruct (sg payload) as [s|] eqn:Hs; injection Hrun as <- <-;
        (split; [done|]); [right|eauto].
      split; [done|]. split; [|done]. intros sg' [= <-]. by rewrite Hs.
  - intros [= <- <-]. split; [done|]. right. split; [done|].
    split; [done|]. by rewrite app_nil_r.
Qed.

(** How [createCommit] ends, and with which calls. *)
Lemma createCommit_steps refHead treeSha message options w r w' :
  createCommit refHead treeSha message options w = (r, w') →
  let payload :=
    mkSignPayload message treeSha [refHead] (author options)
      (committer options) in
  let asked :=
    match signer options with
    | Some _ => [CallSign payload]
    | None => []
    end in
  (∃ sha c,
      r = Ok sha
      ∧ c = mkCommit message treeSha [refHead]
              (signer options ≫= fun sg => sg payload)
              (author options) (committer options)
      ∧ (∀ sg, signer options = Some sg → is_Some (sg payload))
      ∧ objects w' !! sha = Some (Commit c)
      ∧ trace w' = trace w ++ asked ++ [CallFetch; CallCommit c])
  ∨ (∃ cause,
      r = Err (CommitError (CreatingCommit treeSha) cause)
      ∧ objects w' = objects w).
Proof.
  intros Hrun payload asked.
  pose proof (returns_createCommit refHead treeSha message options w) as Hends.
  rewrite Hrun in Hends. simpl in Hends.
  destruct r as [sha|e|]; [left|right|done].
  - unfold createCommit in Hrun.
    apply (proj1 (try_catch_throw_Ok _ (CommitError (CreatingCommit treeSha))
                    _ _ _)) in Hrun.
    apply bind_Ok in Hrun as (signature & w1 & Hsign & Hrun).
    apply bind_Ok in Hrun as ([] & w2 & Hfetch & Hrun).
    apply sign_result in Hsign as [_ [[e ?]|(Hsig & Hsome & Htrace1)]];
      [done|].
    injection Hsig as ->.
    apply fetch_result in Hfetch as [-> _].
    apply commit_result in Hrun
      as [(sha' & [= <-] & Hobj & Htrace2)|(e & ? & _)]; [|done].
    eexists _, _. split; [done|]. split; [done|]. split; [done|].
    split; [exact Hobj|]. rewrite Htrace2. simpl. rewrite Htrace1.
    by rewrite <- !app_assoc.
  - unfold createCommit in Hrun.
    apply (proj1 (try_catch_throw_Err _ (CommitError (CreatingCommit treeSha))
                    _ _ _)) in Hrun as (cause & Hrun & ->).
    exists cause. split; [done|].
    apply bind_Err in Hrun as [Hsign|(signature & w1 & Hsign & Hrun)].
    { by apply sign_result in Hsign as [? _]. }
    apply sign_result in Hsign as [Hobjs1 _].
    apply bind_Err in Hrun as [Hfetch|([] & w2 & Hfetch & Hrun)].
    { apply fetch_result in Hfetch as [-> _]. done. }
    apply fetch_result in Hfetch as [-> _].
    apply commit_result in Hrun as [(sha' & ? & _)|(e & _ & Hobjs)]; [done|].
    by rewrite Hobjs.
Qed.

(** When [createCommit] returns, the commit it names is stored with the
    given message and tree and the given head as its only parent, signed
    with what the signer gave for exactly these (and author and committer)
    when there is a signer, unsigned otherwise; the calls it made are the
    signing, if any, then the fetch, then the commit. *)
Theorem createCommit_stores_signed_commit (refHead treeSha : Oid)
    (message : string) (options : Options) (w w' : World) (sha : Oid) :
  createCommit refHead treeSha message options w = (Ok sha, w') →
  let payload :=
    mkSignPayload message treeSha [refHead] (author options)
      (committer options) in
  let c :=
    mkCommit message treeSha [refHead]
      (signer options ≫= fun sg => sg payload)
      (author options) (committer options) in
  objects w' !! sha = Some (Commit c)
  ∧ (∀ sg, signer options = Some sg → is_Some (commit_signingKey c))
  ∧ (signer options = None → commit_signingKey c = None)
  ∧ trace w' = trace w
               ++ match signer options with
                  | Some _ => [CallSign payload]
                  | None => []
                  end
               ++ [CallFetch; CallCommit c].
Proof.
  intros Hrun payload c.
  destruct (createCommit_steps _ _ _ _ _ _ _ Hrun)
    as [(sha' & c' & [= <-] & -> & Hsome & Hobj & Htrace)|(cause & ? & _)];
    [|done].
  split; [done|]. split.
  { intros sg Hsg. subst c. simpl. rewrite Hsg. simpl. by apply Hsome. }
  split; [|done]. intros Hnone. subst c. simpl. by rewrite Hnone.
Qed.

Lemma createCommit_stores_signed_commit_witness :
  let options := mkOptions (Some sample_signer) None None None in
  let run := createCommit 4 3 "msg" options (sample_repo []) in
  run.1 = Ok 5
  ∧ objects run.2 !! 5
    = Some (Commit (mkCommit "msg" 3 [4] (Some "signed:msg") None None))
  ∧ trace run.2
    = [CallSign (mkSignPayload "msg" 3 [4] None None); CallFetch;
       CallCommit (mkCommit "msg" 3 [4] (Some "signed:msg") None None)].
Proof.
  intros options run. split; [reflexivity|].
  destruct (createCommit_stores_signed_commit 4 3 "msg" options
              (sample_repo []) run.2 5) as (Hobj & _ & _ & Htrace).
  - vm_compute. reflexivity.
  - split; [exact Hobj|exact Htrace].
Defined.



(* ===================================================================== *)
(** ** Change sets with a deletion *)
(* ===================================================================== *)







(* ===================================================================== *)
(** ** Trees the builder writes *)
(* ===================================================================== *)

(** In a store whose trees have unique names and name only stored objects,
    the tree [createTree] returns is stored, has no two entries of the
    same name, names only stored objects, and the store it leaves behind
    is again such a store. *)
Theorem createTree_keeps_store_well_formed (refHead : Oid)
    (tree : list TreeObject) (w w' : World) (treeSha : Oid) :
  wf_store (objects w) →
  createTree refHead tree w = (Ok treeSha, w') →
  wf_store (objects w')
  ∧ ∃ newTree : list TreeEntry,
      objects w' !! treeSha = Some (Tree newTree)
      ∧ unique_names newTree
      ∧ closed_listing (length (objects w')) newTree.
Proof.
  intros Hwf Hrun.
  destruct (createTree_reads _ _ _ _ _ Hwf Hrun) as (c & _ & _ & Hwf' & _).
  split; [done|]. unfold createTree in Hrun.
  apply (proj1 (try_catch_throw_Ok _ (CommitError (AddingToTree refHead))
                  _ _ _)) in Hrun.
  apply bind_Ok in Hrun as (oldTreeSha & w1 & _ & Hrun).
  apply bind_Ok in Hrun as (currentTree & w2 & _ & Hrun).
  apply bind_Ok in Hrun as (newTree & w3 & _ & Hrun).
  apply writeTree_Ok in Hrun as (Hobj & _).
  exists newTree. split; [done|].
  by destruct (wf_store_lookup _ _ _ Hwf' Hobj).
Qed.

Lemma createTree_keeps_store_well_formed_witness :
  let run :=
    createTree 4 (generateTreeObjects sample_changes) (sample_repo []) in
  run.1 = Ok 8
  ∧ wf_store (objects run.2)
  ∧ ∃ newTree : list TreeEntry,
      objects run.2 !! 8 = Some (Tree newTree)
      ∧ unique_names newTree
      ∧ closed_listing (length (objects run.2)) newTree.
Proof.
  intros run. split; [reflexivity|].
  apply (createTree_keeps_store_well_formed 4
           (generateTreeObjects sample_changes) (sample_repo []) run.2 8).
  - by_compute.
  - vm_compute. reflexivity.
Defined.

(* ===================================================================== *)
(** ** When the builder returns *)
(* ===================================================================== *)












(* ===================================================================== *)
(** ** Branches on the hosting service *)
(* ===================================================================== *)

(** The host a request's body is served on. *)
Lemma request_served {A} (r : Request) (body : HM A) h :
  outages h !! 0 = None ∨ outages h !! 0 = Some None →
  request r body h
  = body (mkHost (branches h) (requests h ++ [r]) (tail (outages h))).
Proof.
  unfold request. destruct (outages h) as [|[status|] os]; simpl; [done| |done].
  by intros [?|?].
Qed.

Lemma request_refused {A} (r : Request) (body : HM A) h status :
  outages h !! 0 = Some (Some status) →
  request r body h
  = (Failed status,
     mkHost (branches h) (requests h ++ [r]) (tail (outages h))).
Proof.
  unfold request. destruct (outages h) as [|[s|] os]; simpl; [done| |done].
  by intros [= ->].
Qed.

Lemma quiet_head h :
  quiet h → outages h !! 0 = None ∨ outages h !! 0 = Some None.
Proof.
  unfold quiet. destruct (outages h) as [|o os]; [by left|].
  intros [-> _]%Forall_cons. by right.
Qed.

Lemma quiet_tail h h' : outages h' = tail (outages h) → quiet h → quiet h'.
Proof.
  unfold quiet. intros ->. destruct (outages h); [done|].
  by intros [_ ?]%Forall_cons.
Qed.

(** Every way a [getBranch] may end. *)
Lemma getBranch_result remote name h :
  let h1 := mkHost (branches h) (requests h ++ [GetBranch remote name])
              (tail (outages h)) in
  (∃ status, outages h !! 0 = Some (Some status)
             ∧ getBranch remote name h = (Failed status, h1))
  ∨ ((outages h !! 0 = None ∨ outages h !! 0 = Some None)
     ∧ getBranch remote name h
       = (match branches h !! branch_key remote name with
          | Some id => Done id
          | None => Failed 404
          end, h1)).
Proof.
  intros h1. unfold getBranch.
  destruct (outages h !! 0) as [[status|]|] eqn:Hout.
  - left. exists status. split; [done|]. by apply request_refused.
  - right. split; [by right|]. rewrite request_served by by right.
    simpl. by destruct (branches h !! _).
  - right. split; [by left|]. rewrite request_served by by left.
    simpl. by destruct (branches h !! _).
Qed.

(** What [existsBranchWithName] answers, by the fate of its request. *)
Lemma existsBranchWithName_result remote name h :
  Branch.existsBranchWithName remote name h
  = (match outages h !! 0 with
     | Some (Some status) =>
         if Nat.eqb status 404 then Done false else Failed status
     | _ => Done (bool_decide (is_Some (branches h !! branch_key remote name)))
     end,
     mkHost (branches h) (requests h ++ [GetBranch remote name])
       (tail (outages h))).
Proof.
  unfold Branch.existsBranchWithName, htry, hbind.
  destruct (getBranch_result remote name h)
    as [(status & Hout & ->)|[Hout ->]].
  - rewrite Hout. by destruct (Nat.eqb status 404).
  - assert (Hpresent :
      (match outages h !! 0 with
       | Some (Some status) =>
           if Nat.eqb status 404 then Done false else Failed status
       | _ => Done (bool_decide
                      (is_Some (branches h !! branch_key remote name)))
       end : Reply bool)
      = Done (bool_decide (is_Some (branches h !! branch_key remote name)))).
    { by destruct Hout as [->| ->]. }
    rewrite Hpresent.
    destruct (branches h !! branch_key remote name) as [id|] eqn:Hb; simpl.
    + reflexivity.
    + reflexivity.
Qed.

(** [existsBranchWithName] sends one request and changes no branch.  It
    answers [true] only for a branch that exists, and [false] only when
    the branch does not exist or the request failed with status 404; it
    never fails with 404, and any other failure is the request's own.
    When the request does not fail on the way, the answer is whether the
    branch exists. *)
Theorem existsBranchWithName_answers (remote : RepoDomain) (name : string)
    (h : Host) :
  let run := Branch.existsBranchWithName remote name h in
  let present := bool_decide (is_Some (branches h !! branch_key remote name)) in
  branches run.2 = branches h
  ∧ requests run.2 = requests h ++ [GetBranch remote name]
  ∧ outages run.2 = tail (outages h)
  ∧ (run.1 = Done true → present = true)
  ∧ (run.1 = Done false →
       present = false ∨ outages h !! 0 = Some (Some 404))
  ∧ (∀ status, run.1 = Failed status →
       status ≠ 404 ∧ outages h !! 0 = Some (Some status))
  ∧ (outages h !! 0 = None ∨ outages h !! 0 = Some None →
       run.1 = Done present).
Proof.
  intros run present. subst run present.
  rewrite existsBranchWithName_result. cbn [fst snd branches requests outages].
  split; [done|]. split; [done|]. split; [done|].
  destruct (outages h !! 0) as [[status|]|] eqn:Hout.
  - destruct (Nat.eqb_spec status 404) as [->|Hne].
    + split; [done|]. split; [by right|]. split; [done|]. by intros [?|?].
    + split; [done|]. split; [done|]. split; [by intros s [= <-]|].
      by intros [?|?].
  - split; [by intros [= ->]|]. split; [intros [= ->]; by left|]. done.
  - split; [by intros [= ->]|]. split; [intros [= ->]; by left|]. done.
Qed.

(** Every way a [createBranch] call may end. *)
Lemma createBranch_result remote name baseSha duplicate h r h' :
  Branch.createBranch remote name baseSha duplicate h = (r, h') →
  let target := branch_key remote name in
  (quiet h → quiet h')
  ∧ ((∃ status, r = Failed status ∧ branches h' = branches h)
     ∨ (duplicate = true ∧ r = Done tt ∧ h' = h)
     ∨ (duplicate = false ∧ r = Done tt
        ∧ branches h !! target = None
        ∧ branches h' = <[target := baseSha]> (branches h)
        ∧ requests h' = requests h ++ [PostBranch remote name baseSha])).
Proof.
  intros Hrun target. unfold Branch.createBranch in Hrun.
  destruct duplicate; simpl in Hrun.
  { injection Hrun as <- <-. split; [done|]. right. by left. }
  unfold postBranch in Hrun.
  set (h1 := mkHost (branches h)
               (requests h ++ [PostBranch remote name baseSha])
               (tail (outages h))).
  assert (Hq : quiet h → quiet h1) by (by apply quiet_tail).
  destruct (outages h !! 0) as [[s|]|] eqn:Hout.
  - rewrite request_refused with (status := s) in Hrun by done.
    injection Hrun as <- <-. split; [done|]. left. by exists s.
  - rewrite request_served in Hrun by (by right). fold h1 in Hrun.
    change (branches h1) with (branches h) in Hrun. fold target in Hrun.
    destruct (branches h !! target) eqn:Htarget; injection Hrun as <- <-.
    + split; [done|]. left. by exists 409.
    + split; [exact Hq|]. right. right. by split_and!.
  - rewrite request_served in Hrun by (by left). fold h1 in Hrun.
    change (branches h1) with (branches h) in Hrun. fold target in Hrun.
    destruct (branches h !! target) eqn:Htarget; injection Hrun as <- <-.
    + split; [done|]. left. by exists 409.
    + split; [exact Hq|]. right. right. by split_and!.
Qed.

(** [branch] only rethrows what it catches. *)
Lemma htry_rethrow {A} (m : HM A) h :
  htry m (fun status => hthrow status) h = m h.
Proof. unfold htry, hthrow. by destruct (m h) as [[a|s] h']. Qed.

(** Every way a [branch] call may end. *)
Lemma branch_result origin upstream name baseBranch h r h' :
  Branch.branch origin upstream name baseBranch h = (r, h') →
  let base := default Branch.DEFAULT_PRIMARY_BRANCH baseBranch in
  let target := branch_key origin name in
  (quiet h → quiet h')
  ∧ ((∃ status, r = Failed status ∧ branches h' = branches h)
  ∨ (∃ baseSha,
       r = Done baseSha
       ∧ branches h !! branch_key upstream base = Some baseSha
       ∧ ((is_Some (branches h !! target) ∧ branches h' = branches h
           ∧ requests h' = requests h ++ [GetBranch upstream base;
                                          GetBranch origin name])
          ∨ (branches h !! target = None
             ∧ branches h' = <[target := baseSha]> (branches h)
             ∧ requests h' = requests h
                             ++ [GetBranch upstream base;
                                 GetBranch origin name;
                                 PostBranch origin name baseSha])))).
Proof.
  intros Hrun base target.
  unfold Branch.branch in Hrun. rewrite htry_rethrow in Hrun.
  fold base in Hrun.
  unfold hbind at 1 in Hrun. unfold Branch.getBranchHead in Hrun.
  set (h1 := mkHost (branches h) (requests h ++ [GetBranch upstream base])
               (tail (outages h))).
  assert (Hq1 : quiet h → quiet h1) by (by apply quiet_tail).
  destruct (getBranch_result upstream base h)
    as [(status & _ & Hget)|[_ Hget]]; rewrite Hget in Hrun; fold h1 in Hrun.
  { injection Hrun as <- <-. split; [done|]. left. eauto. }
  destruct (branches h !! branch_key upstream base) as [baseSha|] eqn:Hbase;
    [|injection Hrun as <- <-; split; [done|]; left; eauto].
  unfold hbind at 1 in Hrun. rewrite existsBranchWithName_result in Hrun.
  set (h2 := mkHost (branches h1) (requests h1 ++ [GetBranch origin name])
               (tail (outages h1))) in Hrun.
  assert (Hq2 : quiet h → quiet h2).
  { intros Hq. by apply (quiet_tail h1 h2), Hq1. }
  assert (Hduplicate : ∀ d : bool,
    (if d then is_Some (branches h !! target) else True) →
    hbind (Branch.createBranch origin name baseSha d)
      (fun _ => hret baseSha) h2 = (r, h') →
    (quiet h → quiet h')
    ∧ ((∃ status, r = Failed status ∧ branches h' = branches h)
       ∨ (r = Done baseSha
          ∧ ((is_Some (branches h !! target) ∧ branches h' = branches h
              ∧ requests h' = requests h ++ [GetBranch upstream base;
                                             GetBranch origin name])
             ∨ (branches h !! target = None
                ∧ branches h' = <[target := baseSha]> (branches h)
                ∧ requests h' = requests h
                                ++ [GetBranch upstream base;
                                    GetBranch origin name;
                                    PostBranch origin name baseSha]))))).
  { intros d Hd Hcreate. unfold hbind in Hcreate.
    destruct (Branch.createBranch origin name baseSha d h2) as [[[]|s] h3]
      eqn:Hpost;
      destruct (createBranch_result _ _ _ _ _ _ _ Hpost)
        as [Hq3 [(s' & Hr & Hb)|[(-> & Hr & Hh)|(-> & Hr & Hnone & Hb & Hreq)]]];
      try done; injection Hcreate as <- <-.
    - rewrite Hh. split; [done|]. right. split; [done|]. left.
      split; [done|]. split; [done|]. simpl. by rewrite <- app_assoc.
    - split; [auto|]. right. split; [done|]. right.
      split; [done|]. split; [done|]. rewrite Hreq. simpl.
      by rewrite <- !app_assoc.
    - split; [auto|]. left. by exists s. }
  cut ((quiet h → quiet h')
    ∧ ((∃ status, r = Failed status ∧ branches h' = branches h)
       ∨ (r = Done baseSha
          ∧ ((is_Some (branches h !! target) ∧ branches h' = branches h
              ∧ requests h' = requests h ++ [GetBranch upstream base;
                                             GetBranch origin name])
             ∨ (branches h !! target = None
                ∧ branches h' = <[target := baseSha]> (branches h)
                ∧ requests h' = requests h
                                ++ [GetBranch upstream base;
                                    GetBranch origin name;
                                    PostBranch origin name baseSha]))))).
  { intros [? [?|[? ?]]]; split; [done|by left|done|].
    right. by exists baseSha. }
  destruct (outages h1 !! 0) as [[s|]|] eqn:Hout.
  - destruct (Nat.eqb s 404).
    + by apply (Hduplicate false).
    + injection Hrun as <- <-. split; [done|]. left. by exists s.
  - destruct (decide (is_Some (branches h !! target))) as [Hsome|Hnone].
    + rewrite bool_decide_eq_true_2 in Hrun by done.
      by apply (Hduplicate true).
    + rewrite bool_decide_eq_false_2 in Hrun by done.
      by apply (Hduplicate false).
  - destruct (decide (is_Some (branches h !! target))) as [Hsome|Hnone].
    + rewrite bool_decide_eq_true_2 in Hrun by done.
      by apply (Hduplicate true).
    + rewrite bool_decide_eq_false_2 in Hrun by done.
      by apply (Hduplicate false).
Qed.

(** When [branch] returns, what it returns is the head of the base branch
    on the upstream repository, and the target branch exists on the origin
    repository: if it existed before, nothing was created and every branch
    is as before; if it did not, it has been created at the base head, by
    one request, and every other branch is as before. *)
Theorem branch_creates_only_if_absent (origin upstream : RepoDomain)
    (name : string) (baseBranch : option string) (h h' : Host)
    (baseSha : Oid) :
  Branch.branch origin upstream name baseBranch h = (Done baseSha, h') →
  let base := default Branch.DEFAULT_PRIMARY_BRANCH baseBranch in
  let target := branch_key origin name in
  branches h !! branch_key upstream base = Some baseSha
  ∧ is_Some (branches h' !! target)
  ∧ (is_Some (branches h !! target) →
       branches h' = branches h
       ∧ requests h' = requests h ++ [GetBranch upstream base;
                                      GetBranch origin name])
  ∧ (branches h !! target = None →
       branches h' = <[target := baseSha]> (branches h)
       ∧ requests h' = requests h ++ [GetBranch upstream base;
                                      GetBranch origin name;
                                      PostBranch origin name baseSha]).
Proof.
  intros Hrun base target.
  destruct (branch_result _ _ _ _ _ _ _ Hrun)
    as [_ [(status & ? & _)|(sha & [= <-] & Hbase & Hcases)]]; [done|].
  split; [done|].
  destruct Hcases as [(Hsome & Hb & Hr)|(Hnone & Hb & Hr)].
  - split; [by rewrite Hb|]. split; [done|].
    intros Hnone. fold target in Hsome. rewrite Hnone in Hsome.
    by destruct Hsome.
  - split; [rewrite Hb; fold target; by rewrite lookup_insert_eq|].
    split; [|done]. intros Hsome. fold target in Hnone.
    rewrite Hnone in Hsome. by destruct Hsome.
Qed.

(** [me/repo] has no branch [fix] yet. *)
Lemma branch_creates_only_if_absent_witness :
  let run :=
    Branch.branch origin_repo upstream_repo "fix" None (sample_host []) in
  run.1 = Done 7
  ∧ branches run.2 !! branch_key origin_repo "fix" = Some 7
  ∧ branches run.2 !! branch_key origin_repo "main" = Some 5
  ∧ requests run.2 = [GetBranch upstream_repo "main";
                      GetBranch origin_repo "fix";
                      PostBranch origin_repo "fix" 7].
Proof.
  intros run.
  destruct (branch_creates_only_if_absent origin_repo upstream_repo "fix" None
              (sample_host []) run.2 7) as (_ & _ & _ & Hnew).
  - vm_compute. reflexivity.
  - destruct Hnew as [Hb Hr]; [reflexivity|].
    split; [reflexivity|]. split; [by rewrite Hb|].
    split; [by rewrite Hb|]. exact Hr.
Defined.

(** [branch] never moves or removes a branch: whatever the outcome, every
    branch that existed has the head it had; and when [branch] throws, no
    branch was created either.  When the base branch does not exist and
    the first request is served, it throws with status 404 after that one
    request. *)
Theorem branch_never_moves_a_branch (origin upstream : RepoDomain)
    (name : string) (baseBranch : option string) (h h' : Host)
    (r : Reply Oid) :
  Branch.branch origin upstream name baseBranch h = (r, h') →
  let base := default Branch.DEFAULT_PRIMARY_BRANCH baseBranch in
  (∀ key id, branches h !! key = Some id → branches h' !! key = Some id)
  ∧ (∀ status, r = Failed status → branches h' = branches h)
  ∧ (branches h !! branch_key upstream base = None →
     outages h !! 0 = None ∨ outages h !! 0 = Some None →
     r = Failed 404
     ∧ requests h' = requests h ++ [GetBranch upstream base]).
Proof.
  intros Hrun base. split; [|split].
  - intros key id Hkey.
    destruct (branch_result _ _ _ _ _ _ _ Hrun)
      as [_ [(status & _ & ->)
            |(sha & _ & _ & [(_ & -> & _)|(Hnone & -> & _)])]];
      [done|done|].
    rewrite lookup_insert_ne; [done|]. intros <-. congruence.
  - intros status ->.
    by destruct (branch_result _ _ _ _ _ _ _ Hrun)
      as [_ [(status' & _ & ->)|(sha & ? & _)]].
  - intros Hnone Hserved.
    unfold Branch.branch, htry, hbind, Branch.getBranchHead in Hrun.
    fold base in Hrun.
    destruct (getBranch_result upstream base h)
      as [(status & Hout & _)|[_ Hget]].
    { rewrite Hout in Hserved. by destruct Hserved. }
    rewrite Hget, Hnone in Hrun. by injection Hrun as <- <-.
Qed.

(** The base branch [develop] does not exist upstream. *)
Lemma branch_never_moves_a_branch_witness :
  let run :=
    Branch.branch origin_repo upstream_repo "fix" (Some "develop")
      (sample_host []) in
  run.1 = Failed 404
  ∧ branches run.2 = branches (sample_host [])
  ∧ requests run.2 = [GetBranch upstream_repo "develop"].
Proof.
  intros run.
  destruct (branch_never_moves_a_branch origin_repo upstream_repo "fix"
              (Some "develop") (sample_host []) run.2 run.1)
    as (_ & Hfailed & Hmissing); [apply surjective_pairing|].
  destruct Hmissing as [Hr Hreq]; [reflexivity|by left|].
  split; [exact Hr|]. split; [by apply (Hfailed 404)|exact Hreq].
Defined.

(** Calling [branch] again after it returned, no request failing on the
    way, returns the same base head and creates nothing: the second call
    finds the target branch and skips the creation. *)
Theorem branch_twice (origin upstream : RepoDomain) (name : string)
    (baseBranch : option string) (h h1 : Host) (baseSha : Oid) :
  quiet h →
  Branch.branch origin upstream name baseBranch h = (Done baseSha, h1) →
  ∃ h2 : Host,
    Branch.branch origin upstream name baseBranch h1 = (Done baseSha, h2)
    ∧ branches h2 = branches h1
    ∧ requests h2
      = requests h1
        ++ [GetBranch upstream
              (default Branch.DEFAULT_PRIMARY_BRANCH baseBranch);
            GetBranch origin name].
Proof.
  intros Hquiet Hrun.
  set (base := default Branch.DEFAULT_PRIMARY_BRANCH baseBranch).
  set (target := branch_key origin name).
  destruct (branch_result _ _ _ _ _ _ _ Hrun)
    as [Hq [(status & ? & _)|(sha & [= <-] & Hbase & Hcases)]]; [done|].
  fold base in Hbase. fold target in Hcases.
  assert (Hquiet1 : quiet h1) by auto.
  assert (Hbase1 : branches h1 !! branch_key upstream base = Some baseSha).
  { destruct Hcases as [(_ & -> & _)|(Hnone & -> & _)]; [done|].
    rewrite lookup_insert_ne; [done|]. intros Heq. congruence. }
  assert (Htarget1 : is_Some (branches h1 !! target)).
  { destruct Hcases as [(? & -> & _)|(_ & -> & _)]; [done|].
    by rewrite lookup_insert_eq. }
  unfold Branch.branch, htry, Branch.getBranchHead. fold base.
  unfold hbind at 1.
  destruct (getBranch_result upstream base h1)
    as [(status & Hout & _)|[_ ->]].
  { apply quiet_head in Hquiet1. rewrite Hout in Hquiet1.
    by destruct Hquiet1. }
  rewrite Hbase1.
  set (h1' := mkHost (branches h1) (requests h1 ++ [GetBranch upstream base])
                (tail (outages h1))).
  assert (Hquiet1' : quiet h1') by by eapply quiet_tail.
  unfold hbind at 1. rewrite existsBranchWithName_result.
  destruct (quiet_head _ Hquiet1') as [Hout|Hout]; rewrite Hout;
    change (branches h1') with (branches h1); fold target;
    rewrite bool_decide_eq_true_2 by done;
    unfold hbind, Branch.createBranch, hret; simpl;
    (eexists; split; [reflexivity|]; split; [done|]; simpl;
     by rewrite <- app_assoc).
Qed.

(** Branching [fix] off upstream [main] twice. *)
Lemma branch_twice_witness :
  let run1 :=
    Branch.branch origin_repo upstream_repo "fix" None (sample_host []) in
  run1.1 = Done 7
  ∧ ∃ h2 : Host,
      Branch.branch origin_repo upstream_repo "fix" None run1.2 = (Done 7, h2)
      ∧ branches h2 = branches run1.2
      ∧ requests h2
        = requests run1.2
          ++ [GetBranch upstream_repo
                (default Branch.DEFAULT_PRIMARY_BRANCH None);
              GetBranch origin_repo "fix"].
Proof.
  intros run1. split; [reflexivity|].
  apply (branch_twice origin_repo upstream_repo "fix" None (sample_host [])
           run1.2 7).
  - constructor.
  - vm_compute. reflexivity.
Defined.
